(** * libgit2, [src/win32/findfile.c]: discovery of git's directories on Windows

    A shallow embedding of the file: the PATH walker, the lookup of
    [git.exe]/[git.cmd] along PATH, the registry lookup, the expansion of
    environment templates, and the four public entry points.

    Conventions.
    - A wide string ([wchar_t *]) is the list of its UTF-16 code units up to,
      and without, the terminating NUL.  A pointer into such a string is the
      suffix it points at; two pointers into the same string are equal
      exactly when the suffixes have the same length.
    - A [git_str] is the [string] of its bytes.  Allocation is taken to
      succeed, so [git_str_oom] is false everywhere.
    - A fixed array [git_win32_path] has [GIT_WIN_PATH_UTF16] cells (the
      constant comes from a header that is not part of the sources and is a
      parameter here).  A store past the end of it has no meaning in C; the
      model stops there with [Overrun].
    - Everything the code asks the operating system (environment, file
      existence, registry, UTF-16 to UTF-8 conversion) is a field of a
      [World]. *)

From Stdlib Require Import ZArith NArith List String Ascii Lia Bool.
From stdpp Require Import base option list gmap strings.
Import ListNotations.
Open Scope string_scope.
Open Scope list_scope.

(* ================================================================== *)
(** * Characters, strings, constants *)

Definition wchar_t := N.
Abbreviation wstr := (list wchar_t).
Definition git_str := string.

(** A wide literal with ASCII content. *)
Definition L (s : string) : wstr := map N_of_ascii (list_ascii_of_string s).

Definition wc_quote     : wchar_t := 34%N.  (* the double quote *)
Definition wc_percent   : wchar_t := 37%N.
Definition wc_slash     : wchar_t := 47%N.
Definition wc_semicolon : wchar_t := 59%N.
Definition wc_backslash : wchar_t := 92%N.

Definition MAX_PATH : nat := 260.
Definition GIT_ENOTFOUND : Z := (-3)%Z.
Definition GIT_PATH_LIST_SEPARATOR : ascii := ";"%char.

Definition wcslen (s : wstr) : nat := length s.

(** [*p] for a pointer [p] into a wide string: NUL at the end. *)
Definition deref (p : wstr) : wchar_t := hd 0%N p.

(** [*p == 0]: as no character of a string is NUL, [p] is at the end. *)
Definition at_end (p : wstr) : bool :=
  match p with [] => true | _ :: _ => false end.

(* ================================================================== *)
(** * [win32_walkpath] *)

(** The copy loop
    [for (buflen--; *path && *path != term && buflen; buflen--) *buf++ = *path++;]
    with [n] the value of [buflen] after the initial decrement.  Returns the
    characters stored and the advanced [path]. *)
Fixpoint walk_copy (term : wchar_t) (path : wstr) (n : nat) : wstr * wstr :=
  match path, n with
  | c :: path', S n' =>
      if N.eqb c term then ([], path)
      else let '(copied, rest) := walk_copy term path' n' in (c :: copied, rest)
  | _, _ => ([], path)
  end.

(** The loop after the copy: [path] moves past every character equal to
    [term] or to the semicolon. *)
Fixpoint walk_skip (term : wchar_t) (path : wstr) : wstr :=
  match path with
  | c :: path' =>
      if N.eqb c term || N.eqb c wc_semicolon then walk_skip term path' else path
  | [] => []
  end.

(** The terminator of the entry at [path], and [path] past an opening
    quote: the quote when the entry starts with one, the semicolon
    otherwise. *)
Definition walk_term (path : wstr) : wchar_t * wstr :=
  match path with
  | c :: path' => if N.eqb c wc_quote then (c, path') else (wc_semicolon, path)
  | [] => (wc_semicolon, path)
  end.

(** [win32_walkpath path buf buflen]: the returned pointer ([None] for NULL)
    and the string left in [buf].  [buflen = 0] trips
    [GIT_ASSERT_ARG_WITH_RETVAL(buflen, NULL)] and leaves [buf] alone. *)
Definition win32_walkpath (path buf : wstr) (buflen : nat) : option wstr * wstr :=
  match buflen with
  | 0 => (None, buf)
  | S n =>
      let '(term, p1) := walk_term path in
      let '(copied, p2) := walk_copy term p1 n in
      let p3 := walk_skip term p2 in
      (if Nat.eqb (length p3) (length path) then None else Some p3, copied)
  end.

(** ** The same function on the cells of the destination array

    The stores of one call, in program order: each [(i, c)] is
    [buf[i] = c]. *)
Fixpoint walk_copy_writes (term : wchar_t) (path : wstr) (n i : nat)
  : list (nat * wchar_t) * nat :=
  match path, n with
  | c :: path', S n' =>
      if N.eqb c term then ([], i)
      else let '(ws, j) := walk_copy_writes term path' n' (S i) in ((i, c) :: ws, j)
  | _, _ => ([], i)
  end.

Definition win32_walkpath_writes (path : wstr) (buflen : nat) : list (nat * wchar_t) :=
  match buflen with
  | 0 => []
  | S n =>
      let '(term, p1) := walk_term path in
      let '(ws, j) := walk_copy_writes term p1 n 0 in
      ws ++ [(j, 0%N)]
  end.

(** Performing stores on an array. *)
Definition store_all (ws : list (nat * wchar_t)) (mem : list wchar_t) : list wchar_t :=
  fold_left (fun m w => <[fst w := snd w]> m) ws mem.

(** The wide string that starts at cell 0 of an array: the cells before the
    first NUL. *)
Fixpoint cstring (mem : list wchar_t) : wstr :=
  match mem with
  | c :: mem' => if N.eqb c 0 then [] else c :: cstring mem'
  | [] => []
  end.

(** ** Walking a whole PATH

    [walk_all fuel path buflen]: the entries of the successive calls that
    return a pointer, until one returns NULL. *)
Fixpoint walk_all (fuel : nat) (path : wstr) (buflen : nat) : list wstr :=
  match fuel with
  | 0 => []
  | S fuel' =>
      match win32_walkpath path [] buflen with
      | (Some path', entry) => entry :: walk_all fuel' path' buflen
      | (None, _) => []
      end
  end.

Definition walk_path (path : wstr) (buflen : nat) : list wstr :=
  walk_all (S (length path)) path buflen.

(* ================================================================== *)
(** * Strings of bytes *)

(** The operations on [git_str] come from a file that is not among the
    sources. *)

(** [buf.size] *)
Definition git_str_size (s : git_str) : nat := String.length s.

(** Modelled from the spec: [git_str_clear] empties the string. *)
Definition git_str_clear (buf : git_str) : git_str := "".

(** Modelled from the spec: [git_str_set buf data len] replaces the content
    of [buf] outright by the first [len] bytes of [data]. *)
Definition git_str_set (buf : git_str) (data : string) (len : nat) : git_str :=
  substring 0 len data.

(** Modelled from the spec: [git_str_sets buf s] replaces the content of
    [buf] by the string [s]. *)
Definition git_str_sets (buf : git_str) (s : string) : git_str := s.

(** Modelled from the spec: [git_str_join] (its file is not among the
    sources) joins two strings with the path-list separator; joining onto an
    empty list gives the entry alone, as a list of one entry has no
    separator. *)
Definition git_str_join (sep : ascii) (a b : string) : git_str :=
  match a with
  | EmptyString => b
  | _ => a +:+ String sep b
  end.

(** Modelled from the spec: [git_path_mkposix] (its file is not among the
    sources) rewrites every backslash to a forward slash and changes nothing
    else. *)
Fixpoint git_path_mkposix (s : string) : string :=
  match s with
  | EmptyString => EmptyString
  | String c s' =>
      String (if Ascii.eqb c "\"%char then "/"%char else c) (git_path_mkposix s')
  end.

(* ================================================================== *)
(** * The operating system *)

Inductive HKEY := HKEY_CURRENT_USER | HKEY_LOCAL_MACHINE.

#[global] Instance HKEY_eq_dec : EqDecision HKEY.
Proof. solve_decision. Defined.

Inductive reg_type := REG_NONE | REG_SZ | REG_EXPAND_SZ | REG_BINARY | REG_DWORD.

(** A registry value: its type and its data, held as wide characters; the
    stored data is these characters followed by a terminating NUL. *)
Record reg_value := { reg_ty : reg_type; reg_chars : wstr }.

(** An open registry key: its values by name. *)
Definition reg_key := gmap wstr reg_value.

Record World := {
  (** [_wgetenv(name)], [None] for NULL *)
  _wgetenv : wstr -> option wstr;
  (** [_waccess(path, F_OK)] *)
  _waccess : wstr -> Z;
  (** [ExpandEnvironmentStringsW(src, dst, nSize)]: the value returned and
      the string left in [dst] *)
  ExpandEnvironmentStringsW : wstr -> nat -> nat * wstr;
  (** [RegOpenKeyExW(hive, key, 0, KEY_READ, &hKey)], [None] for a status
      other than [ERROR_SUCCESS] *)
  RegOpenKeyExW : HKEY -> wstr -> option reg_key;
  (** [git_win32_path_to_utf8(dest, src)] (its file is not among the
      sources): the bytes left in [dest], [None] for a negative result *)
  git_win32_path_to_utf8 : wstr -> option string
}.

Definition ERROR_SUCCESS : Z := 0.
Definition ERROR_FILE_NOT_FOUND : Z := 2.
Definition ERROR_MORE_DATA : Z := 234.

(** Bytes of the stored data of a value. *)
Definition reg_data_size (v : reg_value) : Z :=
  2 * (Z.of_nat (length (reg_chars v)) + 1).

(** [RegQueryValueExW(hKey, name, NULL, &dwType, data, &cbData)] with
    [cbData] the bytes available in [data]: the status and, on success, the
    value whose type went to [dwType] and whose data went to [data].  Data
    larger than [cbData] is not copied ([ERROR_MORE_DATA]). *)
Definition RegQueryValueExW (hKey : reg_key) (name : wstr) (cbData : Z)
  : Z * option reg_value :=
  match hKey !! name with
  | None => (ERROR_FILE_NOT_FOUND, None)
  | Some v =>
      if (reg_data_size v <=? cbData)%Z then (ERROR_SUCCESS, Some v)
      else (ERROR_MORE_DATA, None)
  end.

(* ================================================================== *)
(** * Results of a C function that stores into fixed arrays *)

Inductive outcome (A : Type) : Type :=
| Returns (a : A)
| Overrun.
Arguments Returns {A} a.
Arguments Overrun {A}.

#[global] Instance outcome_ret : MRet outcome := fun A a => Returns a.
#[global] Instance outcome_bind : MBind outcome := fun A B f m =>
  match m with Returns a => f a | Overrun => Overrun end.

(* ================================================================== *)
(** * The functions of findfile.c *)

Definition REG_MSYSGIT_INSTALL_LOCAL : wstr :=
  L "SOFTWARE\Microsoft\Windows\CurrentVersion\Uninstall\Git_is1".

Record _findfile_path := { path : wstr; len : nat }.

Section FindFile.

(** [ARRAY_SIZE] of a [git_win32_path]. *)
Variable GIT_WIN_PATH_UTF16 : nat.
(** Whether [_WIN64] is defined. *)
Variable WIN64 : bool.
Variable os : World.

Definition REG_MSYSGIT_INSTALL : wstr :=
  if WIN64
  then L "SOFTWARE\Wow6432Node\Microsoft\Windows\CurrentVersion\Uninstall\Git_is1"
  else REG_MSYSGIT_INSTALL_LOCAL.

(** A string and its NUL fit in a [git_win32_path]. *)
Definition fits (s : wstr) : bool := Nat.ltb (length s) GIT_WIN_PATH_UTF16.

(** [None] is the result [-1]. *)
Definition git_win32__expand_path (src : wstr) : option _findfile_path :=
  let '(n, p) := ExpandEnvironmentStringsW os src GIT_WIN_PATH_UTF16 in
  if Nat.eqb n 0 || Nat.ltb GIT_WIN_PATH_UTF16 n then None
  else Some {| path := p; len := n |}.

(** The status and the new [dest]. *)
Definition win32_path_to_8 (dest : git_str) (src : wstr) : Z * git_str :=
  match git_win32_path_to_utf8 os src with
  | None => ((-1)%Z, dest)
  | Some utf8_path => (0%Z, git_str_sets dest (git_path_mkposix utf8_path))
  end.

(** [root.path] with the separator the loop body ensures at its end. *)
Definition ensure_trailing_slash (root : wstr) : wstr :=
  let lastch := List.last root 0%N in
  if negb (N.eqb lastch wc_slash) && negb (N.eqb lastch wc_backslash)
  then root ++ [wc_backslash] else root.

(** The [while] loop of [win32_find_git_in_path]; [env] is the pointer
    into PATH, [root] the content of [root.path]. *)
Fixpoint find_git_in_path_loop (fuel : nat) (env root : wstr) (buf : git_str)
    (gitexe subdir : wstr) : outcome (Z * git_str) :=
  match fuel with
  | 0 => Returns (GIT_ENOTFOUND, buf)
  | S fuel' =>
      let '(next, dir) := win32_walkpath env root (MAX_PATH - 1) in
      if negb (fits dir) then Overrun
      else
      match next with
      | None => Returns (GIT_ENOTFOUND, buf)
      | Some env' =>
          if at_end dir then Returns (GIT_ENOTFOUND, buf)
          else
            let root := ensure_trailing_slash dir in
            if negb (fits root) then Overrun
            else if Nat.leb MAX_PATH (length root + wcslen gitexe)
            then find_git_in_path_loop fuel' env' root buf gitexe subdir
            else
              let probe := root ++ gitexe in
              if negb (fits probe) then Overrun
              else if Z.eqb (_waccess os probe) 0 && Nat.ltb 5 (length root)
              then
                let found := firstn (length root - 4) root ++ subdir in
                if negb (fits found) then Overrun
                else Returns (0%Z, snd (win32_path_to_8 buf found))
              else find_git_in_path_loop fuel' env' probe buf gitexe subdir
      end
  end.

(** The loop started at [env]; no longer string of calls is possible than
    one per character of [env], and one more for the call that returns
    NULL. *)
Definition find_git_in_path_from (env root : wstr) (buf : git_str)
    (gitexe subdir : wstr) : outcome (Z * git_str) :=
  find_git_in_path_loop (S (length env)) env root buf gitexe subdir.

Definition win32_find_git_in_path (buf : git_str) (gitexe subdir : wstr)
  : outcome (Z * git_str) :=
  match _wgetenv os (L "PATH") with
  | None => Returns ((-1)%Z, buf)
  | Some env => find_git_in_path_from env [] buf gitexe subdir
  end.

(** The conditions under which the loop body takes [dir] as the place of
    [gitexe]. *)
Definition git_found_in (gitexe dir : wstr) : bool :=
  let root := ensure_trailing_slash dir in
  Nat.ltb (length root + wcslen gitexe) MAX_PATH
  && Z.eqb (_waccess os (root ++ gitexe)) 0
  && Nat.ltb 5 (length root).

(** [cbData = (DWORD)(sizeof(path) - wcslen(subdir) * sizeof(wchar_t))] *)
Definition registry_cbData (subdir : wstr) : Z :=
  ((Z.of_nat GIT_WIN_PATH_UTF16 * 2 - Z.of_nat (wcslen subdir) * 2) mod 2 ^ 32)%Z.

(** The content of the local [path] when the value has been read, has
    type [REG_SZ] and the suffix has been appended; [None] when the code
    does not get there. *)
Definition registry_path (hKey : reg_key) (subdir : wstr) : outcome (option wstr) :=
  match RegQueryValueExW hKey (L "InstallLocation") (registry_cbData subdir) with
  | (0%Z, Some v) =>
      if (Z.of_nat GIT_WIN_PATH_UTF16 * 2 <? reg_data_size v)%Z then Overrun
      else
        match reg_ty v with
        | REG_SZ =>
            let p := reg_chars v ++ subdir in
            if negb (fits p) then Overrun else Returns (Some p)
        | _ => Returns None
        end
  | _ => Returns None
  end.

Definition win32_find_git_in_registry (buf : git_str) (hive : HKEY)
    (key subdir : wstr) : outcome (Z * git_str) :=
  match RegOpenKeyExW os hive key with
  | None => Returns (GIT_ENOTFOUND, buf)
  | Some hKey =>
      p ← registry_path hKey subdir;
      match p with
      | Some p =>
          let '(r, buf') := win32_path_to_8 buf p in
          Returns (if Z.eqb r 0 then 0%Z else GIT_ENOTFOUND, buf')
      | None => Returns (GIT_ENOTFOUND, buf)
      end
  end.

(** The [for] loop of [win32_find_existing_dirs]: the new [out] and
    [buf]. *)
Fixpoint find_existing_dirs_loop (tmpl : list wstr) (out buf : git_str)
  : git_str * git_str :=
  match tmpl with
  | [] => (out, buf)
  | t :: tmpl' =>
      match git_win32__expand_path t with
      | Some path16 =>
          if negb (N.eqb (deref (path path16)) wc_percent)
             && Z.eqb (_waccess os (path path16)) 0
          then
            let buf := snd (win32_path_to_8 buf (path path16)) in
            let out :=
              if negb (Nat.eqb (git_str_size buf) 0)
              then git_str_join GIT_PATH_LIST_SEPARATOR out buf else out in
            find_existing_dirs_loop tmpl' out buf
          else find_existing_dirs_loop tmpl' out buf
      | None => find_existing_dirs_loop tmpl' out buf
      end
  end.

Definition win32_find_existing_dirs (out : git_str) (tmpl : list wstr)
  : Z * git_str :=
  let out := git_str_clear out in
  let '(out, _) := find_existing_dirs_loop tmpl out "" in
  (0%Z, out).

(** A source of [git_win32__find_system_dirs] has filled [buf]. *)
Definition hit (r : Z) (buf : git_str) : bool :=
  Z.eqb r 0 && negb (Nat.eqb (git_str_size buf) 0).

Definition git_win32__find_system_dirs (out : git_str) (subdir : wstr)
  : outcome (Z * git_str) :=
  let buf := "" in
  '(r, buf) ← win32_find_git_in_path buf (L "git.exe") subdir;
  let out :=
    if hit r buf then git_str_set out buf (git_str_size buf)
    else git_str_clear out in
  '(r, buf) ← win32_find_git_in_path buf (L "git.cmd") subdir;
  let out :=
    if hit r buf then git_str_join GIT_PATH_LIST_SEPARATOR out buf else out in
  '(r, buf) ← win32_find_git_in_registry
                buf HKEY_CURRENT_USER REG_MSYSGIT_INSTALL_LOCAL subdir;
  let out :=
    if hit r buf then git_str_join GIT_PATH_LIST_SEPARATOR out buf else out in
  '(r, buf) ← win32_find_git_in_registry
                buf HKEY_LOCAL_MACHINE REG_MSYSGIT_INSTALL subdir;
  let out :=
    if hit r buf then git_str_join GIT_PATH_LIST_SEPARATOR out buf else out in
  Returns (0%Z, out).

Definition global_tmpls : list wstr :=
  [ L "%HOME%\"; L "%HOMEDRIVE%%HOMEPATH%\"; L "%USERPROFILE%\" ].

Definition git_win32__find_global_dirs (out : git_str) : Z * git_str :=
  win32_find_existing_dirs out global_tmpls.

Definition xdg_tmpls : list wstr :=
  [ L "%XDG_CONFIG_HOME%\git"; L "%APPDATA%\git"; L "%LOCALAPPDATA%\git";
    L "%HOME%\.config\git"; L "%HOMEDRIVE%%HOMEPATH%\.config\git";
    L "%USERPROFILE%\.config\git" ].

Definition git_win32__find_xdg_dirs (out : git_str) : Z * git_str :=
  win32_find_existing_dirs out xdg_tmpls.

Definition programdata_tmpls : list wstr := [ L "%PROGRAMDATA%\Git" ].

Definition git_win32__find_programdata_dirs (out : git_str) : Z * git_str :=
  win32_find_existing_dirs out programdata_tmpls.

End FindFile.

(* ================================================================== *)
(** * A world given by plain data

    Used to run the functions on concrete machines: an environment block, a
    list of existing files, a registry. *)

(** Expansion of the [%NAME%] references of [src]; a reference to a
    variable that is not defined stays as written.  [name] is [Some acc]
    while the characters after an opening percent sign are collected
    (in reverse) in [acc]. *)
Fixpoint expand_refs (env : gmap wstr wstr) (name : option wstr) (src : wstr) : wstr :=
  match src with
  | [] => match name with None => [] | Some acc => wc_percent :: rev acc end
  | c :: src' =>
      match name with
      | None =>
          if N.eqb c wc_percent then expand_refs env (Some []) src'
          else c :: expand_refs env None src'
      | Some acc =>
          if N.eqb c wc_percent then
            match env !! rev acc with
            | Some v => v ++ expand_refs env None src'
            | None => wc_percent :: rev acc ++ expand_refs env (Some []) src'
            end
          else expand_refs env (Some (c :: acc)) src'
      end
  end.

(** The expansion primitive over an environment block: the size needed,
    terminator included, and the expansion when it fits in [nSize] cells (a
    cut prefix otherwise). *)
Definition expand_environment_strings (env : gmap wstr wstr) (src : wstr) (nSize : nat)
  : nat * wstr :=
  let r := expand_refs env None src in
  (S (length r), if Nat.leb (S (length r)) nSize then r else firstn (nSize - 1) r).

(** UTF-16 to UTF-8, as bytes; an unpaired surrogate has no UTF-8 form. *)
Fixpoint utf16_to_utf8 (s : wstr) : option (list N) :=
  match s with
  | [] => Some []
  | c :: s' =>
      if (c <? 128)%N then cons c <$> utf16_to_utf8 s'
      else if (c <? 2048)%N then
        (fun r => 192 + c / 64 :: 128 + c mod 64 :: r)%N <$> utf16_to_utf8 s'
      else if (55296 <=? c)%N && (c <? 56320)%N then
        match s' with
        | d :: s'' =>
            if (56320 <=? d)%N && (d <? 57344)%N then
              let cp := (65536 + (c - 55296) * 1024 + (d - 56320))%N in
              (fun r => 240 + cp / 262144 :: 128 + (cp / 4096) mod 64
                        :: 128 + (cp / 64) mod 64 :: 128 + cp mod 64 :: r)%N
                <$> utf16_to_utf8 s''
            else None
        | [] => None
        end
      else if (56320 <=? c)%N && (c <? 57344)%N then None
      else if (c <? 65536)%N then
        (fun r => 224 + c / 4096 :: 128 + (c / 64) mod 64 :: 128 + c mod 64 :: r)%N
          <$> utf16_to_utf8 s'
      else None
  end.

(** Modelled from the spec: [git_win32_path_to_utf8] (its file is not among
    the sources) converts the native encoding to UTF-8 and fails when the
    conversion fails. *)
Definition path_to_utf8 (s : wstr) : option string :=
  (fun bytes => string_of_list_ascii (map ascii_of_N bytes)) <$> utf16_to_utf8 s.

Definition windows (env : gmap wstr wstr) (files : list wstr)
    (reg : HKEY -> wstr -> option reg_key) : World :=
  {| _wgetenv := fun name => env !! name;
     _waccess := fun p => if bool_decide (p ∈ files) then 0%Z else (-1)%Z;
     ExpandEnvironmentStringsW := expand_environment_strings env;
     RegOpenKeyExW := reg;
     git_win32_path_to_utf8 := path_to_utf8 |}.

Definition no_registry : HKEY -> wstr -> option reg_key := fun _ _ => None.

(* ================================================================== *)
(** * The PATH format, as the specification words it *)

(** An entry of a PATH value: written as it is, or between double quotes. *)
Inductive path_item :=
| Plain (e : wstr)
| Quoted (e : wstr).

Definition item_dir (i : path_item) : wstr :=
  match i with Plain e => e | Quoted e => e end.

Definition item_text (i : path_item) : wstr :=
  match i with
  | Plain e => e
  | Quoted e => wc_quote :: e ++ [wc_quote]
  end.

(** The PATH value listing the entries, separated by semicolons. *)
Fixpoint render (items : list path_item) : wstr :=
  match items with
  | [] => []
  | [i] => item_text i
  | i :: rest => item_text i ++ wc_semicolon :: render rest
  end.

(** A well-formed entry that fits a destination of [buflen] cells: a plain
    one is not empty, holds no semicolon and does not start with a quote; a
    quoted one holds no quote. *)
Definition item_ok (buflen : nat) (i : path_item) : Prop :=
  match i with
  | Plain e =>
      e <> [] /\ Forall (fun c => c <> wc_semicolon) e /\ deref e <> wc_quote
      /\ length e < buflen
  | Quoted e => Forall (fun c => c <> wc_quote) e /\ length e < buflen
  end.

(** No quoted entry comes right after a quoted entry. *)
Fixpoint quoted_apart (items : list path_item) : Prop :=
  match items with
  | Quoted _ :: ((Quoted _ :: _) as rest) => False
  | _ :: rest => quoted_apart rest
  | [] => True
  end.

(** The split on the semicolons that are not between quotes: an entry whose
    first character is a quote runs to the matching quote and is returned
    without the quotes. *)
Inductive split_state := AtStart | InPlain | InQuoted | AfterQuote.

Fixpoint naive_split (st : split_state) (cur : wstr) (s : wstr) : list wstr :=
  match s with
  | [] =>
      match st with
      | InPlain | InQuoted => [cur]
      | AtStart | AfterQuote => []
      end
  | c :: s' =>
      match st with
      | AtStart =>
          if N.eqb c wc_quote then naive_split InQuoted [] s'
          else if N.eqb c wc_semicolon then [] :: naive_split AtStart [] s'
          else naive_split InPlain [c] s'
      | InPlain =>
          if N.eqb c wc_semicolon then cur :: naive_split AtStart [] s'
          else naive_split InPlain (cur ++ [c]) s'
      | InQuoted =>
          if N.eqb c wc_quote then cur :: naive_split AfterQuote [] s'
          else naive_split InQuoted (cur ++ [c]) s'
      | AfterQuote =>
          if N.eqb c wc_semicolon then naive_split AtStart [] s'
          else naive_split InPlain [c] s'
      end
  end.

Definition split_on_unquoted_semicolons (s : wstr) : list wstr :=
  naive_split AtStart [] s.

(* ================================================================== *)
(** * Whole segments *)

(** A directory separator. *)
Definition is_sep (c : wchar_t) : bool := N.eqb c wc_slash || N.eqb c wc_backslash.

(** The part of a reversed path from its first separator on. *)
Fixpoint from_sep (s : wstr) : wstr :=
  match s with
  | c :: s' => if is_sep c then s else from_sep s'
  | [] => []
  end.

(** [root], which ends with a separator, without its last segment: the
    directory above, with its separator. *)
Definition parent_dir (root : wstr) : wstr := rev (from_sep (tl (rev root))).

(** The lookup keeps whole segments, for a PATH that lists [dir]: either
    the result is the directory above [dir] followed by [subdir],
    converted, or [dir] is rejected. *)
Definition replaces_last_segment (cap : nat) (os : World)
    (gitexe subdir dir : wstr) : Prop :=
  let r := win32_find_git_in_path cap os "" gitexe subdir in
  r = Returns (0%Z,
        snd (win32_path_to_8 os "" (parent_dir (ensure_trailing_slash dir) ++ subdir)))
  \/ r = Returns (GIT_ENOTFOUND, "").

(* ================================================================== *)
(** * The sources of the system directories *)

(** The entry a source of [git_win32__find_system_dirs] delivers when it is
    run by itself: the content of [buf] when the source returns 0 and has
    left something there. *)
Definition own_entry (r : outcome (Z * git_str)) : outcome (option git_str) :=
  '(status, buf) ← r;
  Returns (if hit status buf then Some buf else None).

Definition join_entry (out : git_str) (e : option git_str) : git_str :=
  match e with
  | Some entry => git_str_join GIT_PATH_LIST_SEPARATOR out entry
  | None => out
  end.

(** The four sources, each run by itself on an empty buffer, in the order
    of the calls. *)
Definition system_sources (cap : nat) (win64 : bool) (os : World) (subdir : wstr)
  : list (outcome (Z * git_str)) :=
  [ win32_find_git_in_path cap os "" (L "git.exe") subdir;
    win32_find_git_in_path cap os "" (L "git.cmd") subdir;
    win32_find_git_in_registry cap os "" HKEY_CURRENT_USER
      REG_MSYSGIT_INSTALL_LOCAL subdir;
    win32_find_git_in_registry cap os "" HKEY_LOCAL_MACHINE
      (REG_MSYSGIT_INSTALL win64) subdir ].

(** The output the sources call for: their entries joined in order. *)
Fixpoint join_sources (srcs : list (outcome (Z * git_str))) (out : git_str)
  : outcome (Z * git_str) :=
  match srcs with
  | [] => Returns (0%Z, out)
  | s :: srcs' => e ← own_entry s; join_sources srcs' (join_entry out e)
  end.

(** The sequence of calls of [git_win32__find_system_dirs] after the first
    assignment to [out], over any list of sources: each source receives
    the buffer the one before left. *)
Fixpoint run_sources (fs : list (git_str -> outcome (Z * git_str)))
    (buf out : git_str) : outcome (Z * git_str) :=
  match fs with
  | [] => Returns (0%Z, out)
  | f :: fs' =>
      '(r, buf) ← f buf;
      run_sources fs' buf
        (if hit r buf then git_str_join GIT_PATH_LIST_SEPARATOR out buf else out)
  end.

(** A source either leaves [buf] alone and reports a failure, or replaces
    it and returns 0, or leaves it alone and returns 0, or overruns. *)
Definition buf_action (f : git_str -> outcome (Z * git_str)) : Prop :=
  (exists r, r <> 0%Z /\ forall b, f b = Returns (r, b))
  \/ (exists x, forall b, f b = Returns (0%Z, x))
  \/ (forall b, f b = Returns (0%Z, b))
  \/ (forall b, f b = Overrun).

(** The entry of a source does not depend on what [buf] held. *)
Definition clean (f : git_str -> outcome (Z * git_str)) : Prop :=
  forall b, own_entry (f b) = own_entry (f "").

(* ================================================================== *)
(** * Machines used in the examples *)

(** A capacity for the examples; the theorems hold for every capacity. *)
Definition cells : nat := 4102.

(** Two quoted entries: the letter a between quotes, a semicolon, the letter
    b between quotes. *)
Definition two_quoted : wstr :=
  render [Quoted (L "a"); Quoted (L "b")].

(** PATH starts with a semicolon; git.exe is in the directory after it. *)
Definition leading_semicolon : World :=
  windows {[ L "PATH" := L ";C:\Git\bin" ]} [L "C:\Git\bin\git.exe"] no_registry.

(** git.exe in a directory named bin. *)
Definition git_in_bin : World :=
  windows {[ L "PATH" := L "C:\Tools\Git\bin" ]} [L "C:\Tools\Git\bin\git.exe"]
    no_registry.

(** git.exe in a directory whose name has another length; a directory
    without it comes first in PATH. *)
Definition git_in_libexec : World :=
  windows {[ L "PATH" := L "C:\Windows;C:\Git\libexec" ]}
    [L "C:\Git\libexec\git.exe"] no_registry.

(** A registry with one key, under the hive [h], whose InstallLocation is
    the string [v]. *)
Definition one_record (h : HKEY) (key v : wstr) : HKEY -> wstr -> option reg_key :=
  fun h' key' =>
    if bool_decide (h' = h /\ key' = key)
    then Some {[ L "InstallLocation" := {| reg_ty := REG_SZ; reg_chars := v |} ]}
    else None.

(** A directory name of [n] characters. *)
Definition long_dir (n : nat) : wstr := L "C:\" ++ repeat 97%N (n - 4) ++ L "\".

(** No PATH, no file; InstallLocation of the per-user record has [n]
    characters. *)
Definition install_location_of_length (n : nat) : World :=
  windows ∅ [] (one_record HKEY_CURRENT_USER REG_MSYSGIT_INSTALL_LOCAL (long_dir n)).

(** A template without references, of one character less than the
    capacity: the expansion primitive reports the capacity. *)
Definition template_filling_buffer : wstr := long_dir (cells - 1).

Definition empty_machine : World := windows ∅ [] no_registry.

(** HOMEDRIVE is defined, HOMEPATH is not, and a directory with the
    unexpanded reference in its name exists. *)
Definition homepath_undefined : World :=
  windows {[ L "HOMEDRIVE" := L "C:" ]} [L "C:%HOMEPATH%\.config\git"] no_registry.

(** No variable is defined; a directory named after the template exists. *)
Definition nothing_defined : World :=
  windows ∅ [L "%APPDATA%\git"] no_registry.

(** git.exe is in [C:\A\bin]; git.cmd is in a directory whose name holds an
    unpaired surrogate (code unit D800), which has no UTF-8 form. *)
Definition unconvertible_dir : wstr := L "C:\" ++ [55296%N] ++ L "\bin".

Definition git_cmd_in_unconvertible_dir : World :=
  windows {[ L "PATH" := L "C:\A\bin;" ++ unconvertible_dir ]}
    [L "C:\A\bin\git.exe"; unconvertible_dir ++ L "\git.cmd"] no_registry.

(** No PATH; one record, under the per-user key, with InstallLocation
    [C:\Git\]. *)
Definition one_install_record : World :=
  windows ∅ [] (one_record HKEY_CURRENT_USER REG_MSYSGIT_INSTALL_LOCAL (L "C:\Git\")).

(* ================================================================== *)
(** * Further notions used in the properties *)

(** A PATH value in which each entry is followed by a run of one or more
    semicolons: [(e, k)] stands for [e] and [k + 1] semicolons. *)
Fixpoint render_runs (entries : list (wstr * nat)) : wstr :=
  match entries with
  | [] => []
  | (e, k) :: rest => e ++ repeat wc_semicolon (S k) ++ render_runs rest
  end.

(** A plain well-formed entry, as in [item_ok]. *)
Definition plain_ok (buflen : nat) (e : wstr) : Prop := item_ok buflen (Plain e).

(** git.exe lies in [C:\a], five characters with its separator; another
    directory follows in PATH. *)
Definition git_in_short_dir : World :=
  windows {[ L "PATH" := L "C:\a;D:\tools" ]} [L "C:\a\git.exe"] no_registry.

(** A suffix of 300 characters. *)
Definition long_suffix : wstr := repeat 97%N 300.

(** A suffix of one character more than the array of the examples has
    cells. *)
Definition oversized_suffix : wstr := repeat 97%N (S cells).

(** The string holds no backslash. *)
Fixpoint no_backslash (s : string) : Prop :=
  match s with
  | EmptyString => True
  | String c s' => c <> "\"%char /\ no_backslash s'
  end.

(** The directory a template resolves to: its expansion, when the expansion
    succeeds, does not start with a percent sign and names something that
    exists. *)
Definition template_dir (cap : nat) (os : World) (t : wstr) : option wstr :=
  match git_win32__expand_path cap os t with
  | Some path16 =>
      if negb (N.eqb (deref (path path16)) wc_percent)
         && Z.eqb (_waccess os (path path16)) 0
      then Some (path path16) else None
  | None => None
  end.

(** The entry a template stands for: its directory converted, when the
    conversion succeeds and gives a string that is not empty. *)
Definition template_entry (cap : nat) (os : World) (t : wstr) : option git_str :=
  match template_dir cap os t with
  | Some p =>
      match git_win32_path_to_utf8 os p with
      | Some utf8 =>
          if Nat.eqb (git_str_size (git_path_mkposix utf8)) 0 then None
          else Some (git_path_mkposix utf8)
      | None => None
      end
  | None => None
  end.

(** APPDATA and USERPROFILE are defined and hold a git directory each. *)
Definition roaming_profile : World :=
  windows {[ L "APPDATA" := L "C:\Users\me\AppData\Roaming";
             L "USERPROFILE" := L "C:\Users\me" ]}
    [L "C:\Users\me\AppData\Roaming\git"; L "C:\Users\me\.config\git"] no_registry.

(** APPDATA holds a git directory; LOCALAPPDATA holds one too, under a name
    with an unpaired surrogate. *)
Definition unconvertible_localappdata : World :=
  windows {[ L "APPDATA" := L "C:\A"; L "LOCALAPPDATA" := L "C:\" ++ [55296%N] ]}
    [L "C:\A\git"; L "C:\" ++ [55296%N] ++ L "\git"] no_registry.

(** git.exe and git.cmd are found along PATH and both registry records are
    present. *)
Definition full_machine : World :=
  windows {[ L "PATH" := L "C:\Windows;C:\Git\bin;D:\Git\cmd" ]}
    [L "C:\Git\bin\git.exe"; L "D:\Git\cmd\git.cmd"]
    (fun h key =>
       match h with
       | HKEY_CURRENT_USER =>
           one_record HKEY_CURRENT_USER REG_MSYSGIT_INSTALL_LOCAL (L "E:\User\Git\") h key
       | HKEY_LOCAL_MACHINE =>
           one_record HKEY_LOCAL_MACHINE (REG_MSYSGIT_INSTALL true) (L "F:\Git\") h key
       end).

(* ================================================================== *)
(** * The registry read on the cells of [path] *)

(** A value as the registry holds it: its type and its data, in 16-bit
    cells.  The data of a string is kept as its writer gave it, with or
    without a terminating NUL, and may be empty. *)
Record stored_value := { stored_ty : reg_type; stored_cells : list wchar_t }.

(** An open key of such values. *)
Definition stored_key := gmap wstr stored_value.

(** The cells of a value of [reg_value]: its characters and the NUL. *)
Definition stored (v : reg_value) : stored_value :=
  {| stored_ty := reg_ty v; stored_cells := reg_chars v ++ [0%N] |}.

(** The registry [reg] with each value stored with its NUL. *)
Definition stored_registry (reg : HKEY -> wstr -> option reg_key)
  : HKEY -> wstr -> option stored_key :=
  fun h k =>
    match reg h k with
    | Some hKey => Some (fmap (M := gmap wstr) stored hKey)
    | None => None
    end.

(** The [cap] cells of the local [path] once a query has copied [data] to
    its start: the array is not initialised, and the cells after the data
    keep what they held, [before i] for cell [i]. *)
Definition path_cells (cap : nat) (before : nat -> wchar_t) (data : list wchar_t)
  : list wchar_t :=
  data ++ map before (seq (length data) (cap - length data)).

(** The index of the first NUL among [cells]. *)
Fixpoint first_nul (cells : list wchar_t) : option nat :=
  match cells with
  | [] => None
  | c :: rest => if N.eqb c 0 then Some 0 else S <$> first_nul rest
  end.

(** [wcscat(path, src)] on the [cap] cells of [path]: the string then in
    [path].  The end of the string in [path] is looked for from the first
    cell on; with no NUL in the array the search leaves it, and so does
    the copy of [src] and its NUL when they do not fit behind the string. *)
Definition wcscat_cells (cap : nat) (cells : list wchar_t) (src : wstr)
  : outcome wstr :=
  match first_nul cells with
  | None => Overrun
  | Some n =>
      if Nat.ltb (n + wcslen src) cap then Returns (take n cells ++ src)
      else Overrun
  end.

(** [win32_find_git_in_registry] on the cells of [path], with the registry
    [reg] of stored values; the conversion is the one of [os].  The query
    copies data of at most [cbData] bytes, the type is tested after the
    copy, and only for a string is the suffix appended. *)
Definition win32_find_git_in_registry_cells (cap : nat) (os : World)
    (reg : HKEY -> wstr -> option stored_key) (before : nat -> wchar_t)
    (buf : git_str) (hive : HKEY) (key subdir : wstr) : outcome (Z * git_str) :=
  match reg hive key with
  | None => Returns (GIT_ENOTFOUND, buf)
  | Some hKey =>
      match hKey !! L "InstallLocation" with
      | None => Returns (GIT_ENOTFOUND, buf)
      | Some v =>
          let data := stored_cells v in
          if (2 * Z.of_nat (length data) <=? registry_cbData cap subdir)%Z then
            if Nat.ltb cap (length data) then Overrun
            else
              match stored_ty v with
              | REG_SZ =>
                  p ← wcscat_cells cap (path_cells cap before data) subdir;
                  let '(r, buf') := win32_path_to_8 os buf p in
                  Returns (if Z.eqb r 0 then 0%Z else GIT_ENOTFOUND, buf')
              | _ => Returns (GIT_ENOTFOUND, buf)
              end
          else Returns (GIT_ENOTFOUND, buf)
      end
  end.

(** A registry with one key, under the hive [h], whose InstallLocation is
    a string stored as the cells [data]. *)
Definition one_stored_record (h : HKEY) (key : wstr) (data : list wchar_t)
  : HKEY -> wstr -> option stored_key :=
  fun h' key' =>
    if bool_decide (h' = h /\ key' = key)
    then Some {[ L "InstallLocation" := {| stored_ty := REG_SZ; stored_cells := data |} ]}
    else None.

(** [n] characters and no NUL. *)
Definition unterminated (n : nat) : list wchar_t := repeat 97%N n.

(* ================================================================== *)
(** * The functions at work *)

Example mkposix_users :
  git_path_mkposix "C:\Users\me\git" = "C:/Users/me/git".
Proof. reflexivity. Qed.

Example walk_two_plain :
  walk_path (L "C:\a;D:\b") (MAX_PATH - 1) = [L "C:\a"; L "D:\b"].
Proof. vm_compute. reflexivity. Qed.

Example walk_quoted_semicolon :
  walk_path (render [Quoted (L "C:\a;b"); Plain (L "D:\c")]) (MAX_PATH - 1)
  = [L "C:\a;b"; L "D:\c"].
Proof. vm_compute. reflexivity. Qed.

Example nothing_on_empty_machine :
  git_win32__find_system_dirs cells true empty_machine "old" (L "etc\")
    = Returns (0%Z, "")
  /\ git_win32__find_global_dirs cells empty_machine "old" = (0%Z, "")
  /\ git_win32__find_xdg_dirs cells empty_machine "old" = (0%Z, "")
  /\ git_win32__find_programdata_dirs cells empty_machine "old" = (0%Z, "").
Proof. repeat split; vm_compute; reflexivity. Qed.

Example git_found_in_bin :
  win32_find_git_in_path cells git_in_bin "" (L "git.exe") (L "etc\")
  = Returns (0%Z, "C:/Tools/Git/etc/").
Proof. vm_compute. reflexivity. Qed.

(* ================================================================== *)
(** * Properties of [win32_walkpath] *)

(** The test [c == t] of the code, for a character [c] known to differ
    from [t]. *)
Ltac differs c t := destruct (N.eqb_spec c t); [contradiction|].

(** ** The stores of one call *)

Lemma walk_copy_app term p n :
  fst (walk_copy term p n) ++ snd (walk_copy term p n) = p.
Proof.
  revert n; induction p as [|c p IH]; intros [|n]; simpl; try reflexivity.
  destruct (N.eqb c term); simpl; [reflexivity|].
  specialize (IH n). destruct (walk_copy term p n) as [cp r]; simpl in *.
  now rewrite IH.
Qed.

Lemma walk_copy_length term p n : length (fst (walk_copy term p n)) <= n.
Proof.
  revert n; induction p as [|c p IH]; intros [|n]; simpl; try lia.
  destruct (N.eqb c term); simpl; [lia|].
  specialize (IH n). destruct (walk_copy term p n) as [cp r]; simpl in *. lia.
Qed.

Lemma walk_copy_writes_spec term p n i :
  walk_copy_writes term p n i =
  (zip (seq i (length (fst (walk_copy term p n)))) (fst (walk_copy term p n)),
   i + length (fst (walk_copy term p n))).
Proof.
  revert n i; induction p as [|c p IH]; intros [|n] i; simpl;
    try (f_equal; lia).
  destruct (N.eqb c term); simpl; [f_equal; lia|].
  rewrite (IH n (S i)). destruct (walk_copy term p n) as [cp r]; simpl.
  f_equal. lia.
Qed.

Lemma store_all_app ws1 ws2 mem :
  store_all (ws1 ++ ws2) mem = store_all ws2 (store_all ws1 mem).
Proof. unfold store_all. apply fold_left_app. Qed.

Lemma store_all_run c : forall pre rest,
  length c <= length rest ->
  store_all (zip (seq (length pre) (length c)) c) (pre ++ rest)
  = pre ++ c ++ drop (length c) rest.
Proof.
  induction c as [|a c IH]; intros pre rest Hlen; simpl in *.
  - reflexivity.
  - destruct rest as [|r rest]; simpl in Hlen; [lia|].
    unfold store_all in *. simpl.
    replace (length pre) with (length pre + 0) at 2 by lia.
    rewrite insert_app_r. simpl.
    specialize (IH (pre ++ [a]) rest ltac:(lia)).
    rewrite length_app in IH. simpl in IH.
    replace (length pre + 1) with (S (length pre)) in IH by lia.
    rewrite <- !app_assoc in IH. simpl in IH. exact IH.
Qed.

Lemma walkpath_entry_length path buf n :
  length (snd (win32_walkpath path buf (S n))) <= n.
Proof.
  unfold win32_walkpath. destruct (walk_term path) as [term p1].
  pose proof (walk_copy_length term p1 n) as H.
  destruct (walk_copy term p1 n) as [c p2]; simpl in *. exact H.
Qed.

Lemma walkpath_writes_eq path buf n :
  win32_walkpath_writes path (S n) =
  let entry := snd (win32_walkpath path buf (S n)) in
  zip (seq 0 (length entry)) entry ++ [(length entry, 0%N)].
Proof.
  unfold win32_walkpath_writes, win32_walkpath.
  destruct (walk_term path) as [term p1].
  rewrite walk_copy_writes_spec.
  destruct (walk_copy term p1 n) as [c p2]; simpl. reflexivity.
Qed.

Lemma walkpath_writes_mem path buf n mem :
  S n <= length mem ->
  let entry := snd (win32_walkpath path buf (S n)) in
  store_all (win32_walkpath_writes path (S n)) mem
  = entry ++ 0%N :: drop (S (length entry)) mem.
Proof.
  intros Hmem entry.
  pose proof (walkpath_entry_length path buf n) as Hlen. fold entry in Hlen.
  rewrite (walkpath_writes_eq path buf n). fold entry. cbv zeta.
  rewrite store_all_app.
  pose proof (store_all_run entry [] mem ltac:(lia)) as Hrun. simpl in Hrun.
  rewrite Hrun. unfold store_all. simpl.
  replace (length entry) with (length entry + 0) at 1 by lia.
  rewrite insert_app_r. clearbody entry. f_equal.
  destruct (drop _ mem) as [|d rest] eqn:Hd.
  - apply (f_equal length) in Hd. rewrite length_drop in Hd. simpl in Hd. lia.
  - simpl. f_equal.
    replace (S (length entry)) with (length entry + 1) by lia.
    rewrite <- (drop_drop mem 1 (length entry)). rewrite Hd. reflexivity.
Qed.

(** C9.  For every string [path] and every [buflen] from 1, with a
    destination of at least [buflen] cells: the stores of one call are the
    characters of the entry returned, at most [buflen - 1] of them, and one
    NUL after them, so at most [buflen] stores, all at indices below
    [buflen]; after the call the destination holds the entry followed by
    the NUL, and the cells from [buflen] on are as they were. *)
Theorem walkpath_writes_within_buflen (path : wstr) (buflen : nat) (mem : list wchar_t) :
  1 <= buflen -> buflen <= length mem ->
  let ws := win32_walkpath_writes path buflen in
  let entry := snd (win32_walkpath path (cstring mem) buflen) in
  let mem' := store_all ws mem in
  length ws = length entry + 1 /\
  length entry <= buflen - 1 /\
  Forall (fun w => fst w < buflen) ws /\
  take (length entry) mem' = entry /\
  mem' !! length entry = Some 0%N /\
  drop buflen mem' = drop buflen mem /\
  length mem' = length mem.
Proof.
  intros Hpos Hmem. destruct buflen as [|n]; [lia|].
  intros ws entry mem'.
  pose proof (walkpath_entry_length path (cstring mem) n) as Hlen. fold entry in Hlen.
  assert (Hmem' : mem' = entry ++ 0%N :: drop (S (length entry)) mem)
    by (apply walkpath_writes_mem; exact Hmem).
  assert (Hws : ws = zip (seq 0 (length entry)) entry ++ [(length entry, 0%N)])
    by (apply walkpath_writes_eq).
  clearbody ws entry mem'. subst ws mem'.
  repeat split.
  - rewrite length_app, length_zip, length_seq. simpl. lia.
  - lia.
  - apply Forall_app. split.
    + apply Forall_forall. intros [i c] Hin.
      apply elem_of_zip_l in Hin. apply elem_of_seq in Hin. simpl in *. lia.
    + constructor; [simpl; lia | constructor].
  - rewrite take_app_length. reflexivity.
  - apply list_lookup_middle. reflexivity.
  - rewrite drop_app_ge by lia.
    destruct (S n - length entry) as [|k] eqn:Hk; [lia|]. simpl.
    rewrite drop_drop. f_equal. lia.
  - rewrite length_app. simpl. rewrite length_drop. lia.
Qed.

Lemma walkpath_writes_within_buflen_witness :
  store_all (win32_walkpath_writes (L "C:\bin;D:\x") 4) (repeat 7%N 6)
    !! length (snd (win32_walkpath (L "C:\bin;D:\x") (cstring (repeat 7%N 6)) 4))
  = Some 0%N.
Proof.
  apply (walkpath_writes_within_buflen (L "C:\bin;D:\x") 4 (repeat 7%N 6)).
  - lia.
  - simpl. lia.
Defined.

Lemma cstring_app_nul s rest :
  Forall (fun c => c <> 0%N) s -> cstring (s ++ 0%N :: rest) = s.
Proof.
  induction 1 as [|c s Hc Hs IH]; simpl; [reflexivity|].
  destruct (N.eqb_spec c 0); [contradiction|]. now rewrite IH.
Qed.

Lemma walk_copy_Forall (P : wchar_t -> Prop) term p n :
  Forall P p -> Forall P (fst (walk_copy term p n)).
Proof.
  intros H. rewrite <- (walk_copy_app term p n) in H.
  apply Forall_app in H. tauto.
Qed.

Lemma walk_term_Forall (P : wchar_t -> Prop) p :
  Forall P p -> Forall P (snd (walk_term p)).
Proof.
  destruct p as [|c p]; simpl; [trivial|].
  destruct (N.eqb c wc_quote); simpl; [|trivial].
  intros H. now inversion H.
Qed.

Lemma walkpath_entry_Forall (P : wchar_t -> Prop) path buf n :
  Forall P path -> Forall P (snd (win32_walkpath path buf (S n))).
Proof.
  intros H. unfold win32_walkpath.
  pose proof (walk_term_Forall P path H) as H1.
  destruct (walk_term path) as [term p1]; simpl in H1.
  pose proof (walk_copy_Forall P term p1 n H1) as H2.
  destruct (walk_copy term p1 n) as [c p2]; simpl in *. exact H2.
Qed.

Lemma walkpath_buffer_holds_entry path buf n mem :
  Forall (fun c => c <> 0%N) path -> S n <= length mem ->
  cstring (store_all (win32_walkpath_writes path (S n)) mem)
  = snd (win32_walkpath path buf (S n)).
Proof.
  intros Hnz Hmem. rewrite (walkpath_writes_mem path buf n mem Hmem).
  apply cstring_app_nul. now apply walkpath_entry_Forall.
Qed.

(** ** The pointer returned moves forward *)

Lemma walk_skip_length term p : length (walk_skip term p) <= length p.
Proof.
  induction p as [|c p IH]; simpl; [lia|].
  destruct (N.eqb c term || N.eqb c wc_semicolon); simpl; lia.
Qed.

Lemma walk_copy_rest_length term p n : length (snd (walk_copy term p n)) <= length p.
Proof.
  pose proof (walk_copy_app term p n) as H. apply (f_equal length) in H.
  rewrite length_app in H. lia.
Qed.

Lemma walk_term_length p : length (snd (walk_term p)) <= length p.
Proof.
  destruct p as [|c p]; simpl; [lia|].
  destruct (N.eqb c wc_quote); simpl; lia.
Qed.

Lemma walkpath_progress path buf buflen path' entry :
  win32_walkpath path buf buflen = (Some path', entry) ->
  length path' < length path.
Proof.
  unfold win32_walkpath. destruct buflen as [|n]; [discriminate|].
  pose proof (walk_term_length path) as H1.
  destruct (walk_term path) as [term p1]; simpl in H1.
  pose proof (walk_copy_rest_length term p1 n) as H2.
  destruct (walk_copy term p1 n) as [c p2]; simpl in H2.
  pose proof (walk_skip_length term p2) as H3.
  destruct (Nat.eqb_spec (length (walk_skip term p2)) (length path)) as [E|E];
    [discriminate|].
  intros [= <- _]. lia.
Qed.

(** With fuel above the length of the string, [walk_all] never stops for
    lack of fuel. *)
Lemma walk_all_fuel buflen : forall fuel1 fuel2 path,
  length path < fuel1 -> length path < fuel2 ->
  walk_all fuel1 path buflen = walk_all fuel2 path buflen.
Proof.
  induction fuel1 as [|f1 IH]; intros [|f2] path H1 H2; try lia.
  simpl. destruct (win32_walkpath path [] buflen) as [[path'|] entry] eqn:E;
    [|reflexivity].
  apply walkpath_progress in E. f_equal. apply IH; lia.
Qed.

Lemma walk_path_step path buflen :
  walk_path path buflen =
  match win32_walkpath path [] buflen with
  | (Some path', entry) => entry :: walk_path path' buflen
  | (None, _) => []
  end.
Proof.
  unfold walk_path at 1. cbn [walk_all].
  destruct (win32_walkpath path [] buflen) as [[path'|] entry] eqn:E;
    [|reflexivity].
  apply walkpath_progress in E. f_equal. apply walk_all_fuel; lia.
Qed.

(** ** Entries as long as the destination *)

Lemma walk_copy_full term entry : forall rest n,
  Forall (fun c => c <> term) entry -> n <= length entry ->
  walk_copy term (entry ++ rest) n = (take n entry, drop n entry ++ rest).
Proof.
  induction entry as [|c entry IH]; intros rest n Hne Hn; simpl in *.
  - assert (n = 0) as -> by lia. destruct rest; reflexivity.
  - destruct n as [|n]; [reflexivity|].
    inversion Hne as [|? ? Hc Hne']; subst.
    differs c term.
    rewrite (IH rest n Hne' ltac:(lia)). reflexivity.
Qed.

(** An entry that ends before the destination is full is copied whole. *)
Lemma walk_copy_whole term entry : forall rest n,
  Forall (fun c => c <> term) entry -> length entry <= n ->
  (rest = [] \/ deref rest = term) ->
  walk_copy term (entry ++ rest) n = (entry, rest).
Proof.
  induction entry as [|c entry IH]; intros rest n Hne Hn Hrest; simpl in *.
  - destruct rest as [|r rest]; [reflexivity|].
    destruct Hrest as [|Hr]; [discriminate|]. simpl in Hr. subst r.
    destruct n; simpl; [reflexivity|]. now rewrite N.eqb_refl.
  - destruct n as [|n]; [lia|].
    inversion Hne as [|? ? Hc Hne']; subst.
    differs c term.
    rewrite (IH rest n Hne' ltac:(lia)); auto.
Qed.

Lemma walkpath_full_term term p1 path buf n entry rest :
  walk_term path = (term, p1) -> p1 = entry ++ rest ->
  Forall (fun c => c <> term) entry -> n <= length entry ->
  length (drop n entry ++ rest) < length path ->
  win32_walkpath path buf (S n)
    = (Some (walk_skip term (drop n entry ++ rest)), take n entry)
  /\ win32_walkpath_writes path (S n)
    = zip (seq 0 n) (take n entry) ++ [(n, 0%N)].
Proof.
  intros Ht -> Hne Hn Hlt.
  assert (Hw : win32_walkpath path buf (S n)
               = (Some (walk_skip term (drop n entry ++ rest)), take n entry)).
  { unfold win32_walkpath. rewrite Ht, (walk_copy_full term entry rest n Hne Hn).
    pose proof (walk_skip_length term (drop n entry ++ rest)) as Hs.
    destruct (Nat.eqb_spec (length (walk_skip term (drop n entry ++ rest)))
                           (length path)); [lia|reflexivity]. }
  split; [exact Hw|].
  rewrite (walkpath_writes_eq path buf n), Hw. simpl.
  rewrite length_take. replace (n `min` length entry) with n by lia. reflexivity.
Qed.

(** C8.  An entry of at least [buflen - 1] characters: the walker stores
    exactly the first [buflen - 1] characters of it and then the NUL, at
    cell [buflen - 1], and returns a pointer, not NULL, so the walk goes on
    from the cut.  Stated for an entry without quotes (no semicolon inside,
    not starting with a quote) and for a quoted one (no quote inside), for
    any [buflen] from 2; the one call in the file passes [MAX_PATH - 1]. *)
Theorem walkpath_truncates_long_entry (entry rest buf : wstr) (buflen : nat) :
  2 <= buflen -> buflen - 1 <= length entry ->
  length (take (buflen - 1) entry) = buflen - 1
  /\ (Forall (fun c => c <> wc_semicolon) entry -> deref entry <> wc_quote ->
      win32_walkpath (entry ++ rest) buf buflen
        = (Some (walk_skip wc_semicolon (drop (buflen - 1) entry ++ rest)),
           take (buflen - 1) entry)
      /\ win32_walkpath_writes (entry ++ rest) buflen
        = zip (seq 0 (buflen - 1)) (take (buflen - 1) entry) ++ [(buflen - 1, 0%N)])
  /\ (Forall (fun c => c <> wc_quote) entry ->
      win32_walkpath (wc_quote :: entry ++ rest) buf buflen
        = (Some (walk_skip wc_quote (drop (buflen - 1) entry ++ rest)),
           take (buflen - 1) entry)
      /\ win32_walkpath_writes (wc_quote :: entry ++ rest) buflen
        = zip (seq 0 (buflen - 1)) (take (buflen - 1) entry) ++ [(buflen - 1, 0%N)]).
Proof.
  intros Hbuf Hlen. destruct buflen as [|n]; [lia|].
  replace (S n - 1) with n in * by lia.
  split; [rewrite length_take; lia|]. split.
  - intros Hne Hq.
    apply (walkpath_full_term wc_semicolon (entry ++ rest)); auto.
    + destruct entry as [|c entry]; simpl in *; [lia|].
      destruct (N.eqb_spec c wc_quote); [contradiction|reflexivity].
    + rewrite !length_app, length_drop. lia.
  - intros Hne.
    apply (walkpath_full_term wc_quote (entry ++ rest)); auto.
    rewrite length_app, length_drop. simpl. rewrite length_app. lia.
Qed.

Lemma walkpath_truncates_long_entry_witness :
  win32_walkpath (L "abcdef;C:\bin") [] 4
  = (Some (L "def;C:\bin"), L "abc").
Proof.
  pose proof (walkpath_truncates_long_entry (L "abcdef") (L ";C:\bin") [] 4
                ltac:(lia) ltac:(simpl; lia)) as (_ & H & _).
  apply H.
  - vm_compute. repeat constructor; discriminate.
  - vm_compute. discriminate.
Defined.

(** ** The walker against the split of the specification *)

Lemma render_cons i j items :
  render (i :: j :: items) = item_text i ++ wc_semicolon :: render (j :: items).
Proof. reflexivity. Qed.

Lemma naive_split_plain_run e : forall cur rest,
  Forall (fun c => c <> wc_semicolon) e ->
  naive_split InPlain cur (e ++ rest) = naive_split InPlain (cur ++ e) rest.
Proof.
  induction e as [|c e IH]; intros cur rest Hne; simpl.
  - now rewrite app_nil_r.
  - inversion Hne as [|? ? Hc Hne']; subst.
    differs c wc_semicolon.
    rewrite IH by assumption. now rewrite <- app_assoc.
Qed.

Lemma naive_split_quoted_run e : forall cur rest,
  Forall (fun c => c <> wc_quote) e ->
  naive_split InQuoted cur (e ++ rest) = naive_split InQuoted (cur ++ e) rest.
Proof.
  induction e as [|c e IH]; intros cur rest Hne; simpl.
  - now rewrite app_nil_r.
  - inversion Hne as [|? ? Hc Hne']; subst.
    differs c wc_quote.
    rewrite IH by assumption. now rewrite <- app_assoc.
Qed.

Lemma naive_split_item buflen i rest :
  item_ok buflen i ->
  naive_split AtStart [] (item_text i ++ rest)
  = match i with
    | Plain e => naive_split InPlain e rest
    | Quoted e => item_dir i :: naive_split AfterQuote [] rest
    end.
Proof.
  destruct i as [e|e]; simpl.
  - intros (Hnil & Hne & Hq & _).
    destruct e as [|c e]; [contradiction|]. simpl in *.
    inversion Hne as [|? ? Hc Hne']; subst.
    differs c wc_quote.
    differs c wc_semicolon.
    now rewrite naive_split_plain_run.
  - intros (Hne & _).
    rewrite <- app_assoc, naive_split_quoted_run by assumption.
    reflexivity.
Qed.

(** The split of the specification gives back the entries of a well-formed
    PATH value. *)
Lemma split_render buflen items :
  Forall (item_ok buflen) items ->
  split_on_unquoted_semicolons (render items) = map item_dir items.
Proof.
  unfold split_on_unquoted_semicolons.
  induction items as [|i items IH]; intros Hok; [reflexivity|].
  inversion Hok as [|? ? Hi Hrest]; subst.
  destruct items as [|j items].
  - simpl render. rewrite <- (app_nil_r (item_text i)).
    rewrite (naive_split_item buflen) by assumption.
    destruct i; reflexivity.
  - rewrite render_cons, (naive_split_item buflen) by assumption.
    specialize (IH Hrest).
    destruct i.
    + change (naive_split InPlain e (wc_semicolon :: render (j :: items)))
        with (e :: naive_split AtStart [] (render (j :: items))).
      now rewrite IH.
    + change (naive_split AfterQuote [] (wc_semicolon :: render (j :: items)))
        with (naive_split AtStart [] (render (j :: items))).
      now rewrite IH.
Qed.

Lemma walk_skip_stop term p :
  p = [] \/ (deref p <> term /\ deref p <> wc_semicolon) ->
  walk_skip term p = p.
Proof.
  destruct p as [|c p]; [reflexivity|]. intros [|[H1 H2]]; [discriminate|].
  simpl in *. differs c term.
  differs c wc_semicolon. reflexivity.
Qed.

Lemma walkpath_nil buf n : win32_walkpath [] buf (S n) = (None, []).
Proof. destruct n; reflexivity. Qed.

Lemma walkpath_eq path buf n term p1 copied p2 :
  walk_term path = (term, p1) -> walk_copy term p1 n = (copied, p2) ->
  win32_walkpath path buf (S n)
  = (if Nat.eqb (length (walk_skip term p2)) (length path)
     then None else Some (walk_skip term p2), copied).
Proof. intros H1 H2. unfold win32_walkpath. now rewrite H1, H2. Qed.

Lemma walkpath_plain e rest buf n :
  e <> [] -> Forall (fun c => c <> wc_semicolon) e -> deref e <> wc_quote ->
  length e <= n ->
  rest = [] \/ deref rest = wc_semicolon ->
  win32_walkpath (e ++ rest) buf (S n) = (Some (walk_skip wc_semicolon rest), e).
Proof.
  intros Hnil Hne Hq Hlen Hrest.
  assert (Ht : walk_term (e ++ rest) = (wc_semicolon, e ++ rest)).
  { destruct e as [|c e]; [contradiction|]. simpl in *.
    destruct (N.eqb_spec c wc_quote); [contradiction|reflexivity]. }
  rewrite (walkpath_eq _ buf n _ _ _ _ Ht
             (walk_copy_whole wc_semicolon e rest n Hne Hlen Hrest)).
  pose proof (walk_skip_length wc_semicolon rest) as Hs.
  rewrite length_app.
  destruct (Nat.eqb_spec (length (walk_skip wc_semicolon rest))
                         (length e + length rest)); [|reflexivity].
  destruct e; [contradiction|]. simpl in *. lia.
Qed.

Lemma walkpath_quoted e rest buf n :
  Forall (fun c => c <> wc_quote) e -> length e <= n ->
  win32_walkpath (wc_quote :: e ++ wc_quote :: rest) buf (S n)
  = (Some (walk_skip wc_quote rest), e).
Proof.
  intros Hne Hlen.
  rewrite (walkpath_eq (wc_quote :: e ++ wc_quote :: rest) buf n
             wc_quote (e ++ wc_quote :: rest) e (wc_quote :: rest)
             eq_refl
             (walk_copy_whole wc_quote e (wc_quote :: rest) n Hne Hlen
                (or_intror eq_refl))).
  change (walk_skip wc_quote (wc_quote :: rest)) with (walk_skip wc_quote rest).
  pose proof (walk_skip_length wc_quote rest) as Hs.
  simpl length. rewrite length_app. simpl length.
  destruct (Nat.eqb_spec (length (walk_skip wc_quote rest))
                         (S (length e + S (length rest)))); [lia|reflexivity].
Qed.

Lemma render_head_plain buflen e items :
  item_ok buflen (Plain e) ->
  deref (render (Plain e :: items)) <> wc_quote
  /\ deref (render (Plain e :: items)) <> wc_semicolon.
Proof.
  intros (Hnil & Hne & Hq & _).
  destruct e as [|c e]; [contradiction|].
  inversion Hne; subst.
  destruct items; simpl in *; auto.
Qed.

Lemma render_head_quoted e items :
  deref (render (Quoted e :: items)) = wc_quote.
Proof. destruct items; reflexivity. Qed.

(** The call at a plain entry returns it and points at the next entry. *)
Lemma walkpath_render_plain n e items buf :
  Forall (item_ok (S n)) (Plain e :: items) ->
  win32_walkpath (render (Plain e :: items)) buf (S n) = (Some (render items), e).
Proof.
  intros Hok. inversion Hok as [|? ? Hi Hrest]; subst.
  destruct Hi as (Hnil & Hne & Hnq & Hlen).
  destruct items as [|j items].
  - simpl render. rewrite <- (app_nil_r e) at 1.
    rewrite walkpath_plain by (auto; lia). reflexivity.
  - rewrite render_cons. simpl item_text.
    set (R := render (j :: items)) in *.
    rewrite walkpath_plain by (auto; try lia; right; reflexivity).
    change (walk_skip wc_semicolon (wc_semicolon :: R)) with (walk_skip wc_semicolon R).
    rewrite walk_skip_stop; [reflexivity|].
    right. subst R. inversion Hrest as [|? ? Hj _]; subst.
    destruct j as [f|f].
    + destruct (render_head_plain (S n) f items Hj). split; assumption.
    + rewrite render_head_quoted. split; discriminate.
Qed.

(** The call at a quoted entry returns it without the quotes and points at
    the next entry, when that one is plain. *)
Lemma walkpath_render_quoted n e items buf :
  Forall (item_ok (S n)) (Quoted e :: items) -> quoted_apart (Quoted e :: items) ->
  win32_walkpath (render (Quoted e :: items)) buf (S n) = (Some (render items), e).
Proof.
  intros Hok Hq. inversion Hok as [|? ? Hi Hrest]; subst.
  destruct Hi as (Hne & Hlen).
  destruct items as [|j items].
  - simpl render.
    change (wc_quote :: e ++ [wc_quote]) with (wc_quote :: e ++ wc_quote :: []).
    rewrite walkpath_quoted by (auto; lia). reflexivity.
  - rewrite render_cons. simpl item_text.
    set (R := render (j :: items)) in *.
    change ((wc_quote :: e ++ [wc_quote]) ++ wc_semicolon :: R)
      with (wc_quote :: (e ++ [wc_quote]) ++ wc_semicolon :: R).
    rewrite <- app_assoc.
    change ([wc_quote] ++ wc_semicolon :: R) with (wc_quote :: wc_semicolon :: R).
    rewrite walkpath_quoted by (auto; lia).
    change (walk_skip wc_quote (wc_semicolon :: R)) with (walk_skip wc_quote R).
    rewrite walk_skip_stop; [reflexivity|].
    right. subst R. inversion Hrest as [|? ? Hj _]; subst.
    destruct j as [f|f]; [|simpl in Hq; contradiction].
    apply (render_head_plain (S n) f items Hj).
Qed.

(** On a well-formed PATH value in which no quoted entry follows a quoted
    entry, the calls of the walker return the entries, one by one. *)
Lemma walk_path_render n items :
  Forall (item_ok (S n)) items -> quoted_apart items ->
  walk_path (render items) (S n) = map item_dir items.
Proof.
  induction items as [|i items IH]; intros Hok Hq.
  - rewrite walk_path_step. simpl render. now rewrite walkpath_nil.
  - assert (Hrest : Forall (item_ok (S n)) items) by (now inversion Hok).
    assert (Hq' : quoted_apart items).
    { destruct i; destruct items as [|[?|?] ?]; simpl in Hq; tauto. }
    specialize (IH Hrest Hq').
    rewrite walk_path_step.
    destruct i as [e|e].
    + rewrite walkpath_render_plain by assumption. simpl map. now rewrite IH.
    + rewrite walkpath_render_quoted by assumption. simpl map. now rewrite IH.
Qed.

(** So there the walker and the split of the specification agree. *)
Lemma walk_path_is_split n items :
  Forall (item_ok (S n)) items -> quoted_apart items ->
  walk_path (render items) (S n) = split_on_unquoted_semicolons (render items).
Proof.
  intros Hok Hq. rewrite (split_render (S n)) by assumption.
  now apply walk_path_render.
Qed.

(** C2.  Two quoted entries in a row: the loop that skips the closing quote
    and the semicolon of the first entry also skips the opening quote of
    the second, which the next call then reads as a plain entry and returns
    with its closing quote.  The split of the specification returns the two
    entries without quotes. *)
Theorem walk_path_two_quoted_entries :
  Forall (item_ok (MAX_PATH - 1)) [Quoted (L "a"); Quoted (L "b")]
  /\ walk_path two_quoted (MAX_PATH - 1) = [L "a"; L "b" ++ [wc_quote]]
  /\ split_on_unquoted_semicolons two_quoted = [L "a"; L "b"]
  /\ walk_path two_quoted (MAX_PATH - 1) <> split_on_unquoted_semicolons two_quoted.
Proof.
  split; [|split; [|split]].
  - repeat constructor; vm_compute; try lia; discriminate.
  - vm_compute. reflexivity.
  - vm_compute. reflexivity.
  - vm_compute. discriminate.
Qed.

(* ================================================================== *)
(** * Properties of [win32_find_git_in_path] *)

(** With fuel above the length of PATH the loop never stops for lack of
    fuel: the result is the same for every such amount. *)
Lemma find_git_in_path_loop_fuel cap os gitexe subdir :
  forall fuel1 fuel2 env root buf,
  length env < fuel1 -> length env < fuel2 ->
  find_git_in_path_loop cap os fuel1 env root buf gitexe subdir
  = find_git_in_path_loop cap os fuel2 env root buf gitexe subdir.
Proof.
  induction fuel1 as [|f1 IH]; intros [|f2] env root buf H1 H2; try lia.
  cbn [find_git_in_path_loop].
  destruct (win32_walkpath env root (MAX_PATH - 1)) as [[env'|] dir] eqn:E;
    [|reflexivity].
  apply walkpath_progress in E.
  destruct (negb (fits cap dir)); [reflexivity|].
  repeat match goal with
         | |- (if ?b then _ else _) = (if ?b then _ else _) =>
             destruct b; [try reflexivity | try reflexivity]
         end; apply IH; lia.
Qed.

Lemma walkpath_empty_entry (rest buf : wstr) (n : nat) :
  (exists env', win32_walkpath (wc_semicolon :: rest) buf (S n) = (Some env', []))
  /\ (exists env', win32_walkpath (wc_quote :: wc_quote :: rest) buf (S n)
                   = (Some env', [])).
Proof.
  split.
  - exists (walk_skip wc_semicolon rest).
    unfold win32_walkpath. simpl.
    destruct n; simpl;
      pose proof (walk_skip_length wc_semicolon rest);
      destruct (Nat.eqb_spec (length (walk_skip wc_semicolon rest)) (S (length rest)));
      (lia || reflexivity).
  - exists (walk_skip wc_quote rest).
    unfold win32_walkpath. simpl.
    destruct n; simpl;
      pose proof (walk_skip_length wc_quote rest);
      destruct (Nat.eqb_spec (length (walk_skip wc_quote rest)) (S (S (length rest))));
      (lia || reflexivity).
Qed.

(** C10.  When PATH begins with a semicolon, or with an empty quoted entry,
    the first call of the walker returns a pointer and an empty entry, the
    loop of [win32_find_git_in_path] ends on it, and the lookup returns
    [GIT_ENOTFOUND] with [buf] untouched, whatever files exist: no
    directory after the empty entry is probed. *)
Theorem find_git_in_path_stops_at_empty_entry
    (cap : nat) (os : World) (buf : git_str) (gitexe subdir env rest : wstr) :
  0 < cap ->
  _wgetenv os (L "PATH") = Some env ->
  env = wc_semicolon :: rest \/ env = wc_quote :: wc_quote :: rest ->
  (exists env', win32_walkpath env [] (MAX_PATH - 1) = (Some env', []))
  /\ win32_find_git_in_path cap os buf gitexe subdir = Returns (GIT_ENOTFOUND, buf).
Proof.
  intros Hcap Henv Hshape.
  assert (Hw : exists env', win32_walkpath env [] (MAX_PATH - 1) = (Some env', [])).
  { change (MAX_PATH - 1) with (S 258).
    destruct Hshape as [-> | ->]; apply walkpath_empty_entry. }
  split; [exact Hw|].
  destruct Hw as [env' Hw].
  unfold win32_find_git_in_path, find_git_in_path_from. rewrite Henv.
  cbn [find_git_in_path_loop]. rewrite Hw.
  unfold fits. simpl length.
  destruct (Nat.ltb_spec 0 cap); [reflexivity | lia].
Qed.

Lemma find_git_in_path_stops_at_empty_entry_witness :
  _waccess leading_semicolon (L "C:\Git\bin\git.exe") = 0%Z
  /\ win32_find_git_in_path cells leading_semicolon "" (L "git.exe") (L "etc\")
     = Returns (GIT_ENOTFOUND, "").
Proof.
  split; [reflexivity|].
  apply (find_git_in_path_stops_at_empty_entry cells leading_semicolon ""
           (L "git.exe") (L "etc\") (L ";C:\Git\bin") (L "C:\Git\bin")).
  - unfold cells; lia.
  - reflexivity.
  - left; reflexivity.
Defined.

(** ** One turn of the loop *)

Lemma find_git_in_path_loop_root cap os fuel env r1 r2 buf gitexe subdir :
  find_git_in_path_loop cap os fuel env r1 buf gitexe subdir
  = find_git_in_path_loop cap os fuel env r2 buf gitexe subdir.
Proof. destruct fuel; reflexivity. Qed.

Lemma ensure_trailing_slash_length dir :
  length dir <= length (ensure_trailing_slash dir) <= S (length dir).
Proof.
  unfold ensure_trailing_slash.
  destruct (_ && _); rewrite ?length_app; simpl; lia.
Qed.

Lemma find_git_in_path_from_step cap os env env' root dir buf gitexe subdir :
  MAX_PATH <= cap ->
  win32_walkpath env root (MAX_PATH - 1) = (Some env', dir) ->
  dir <> [] ->
  find_git_in_path_from cap os env root buf gitexe subdir
  = if git_found_in os gitexe dir
    then
      let r := ensure_trailing_slash dir in
      let found := take (length r - 4) r ++ subdir in
      if fits cap found then Returns (0%Z, snd (win32_path_to_8 os buf found))
      else Overrun
    else find_git_in_path_from cap os env' dir buf gitexe subdir.
Proof.
  intros Hcap Hw Hnil.
  pose proof (walkpath_progress _ _ _ _ _ Hw) as Hprog.
  assert (Hlen : length dir <= 258).
  { pose proof (walkpath_entry_length env root 258) as H.
    change (S 258) with (MAX_PATH - 1) in H. now rewrite Hw in H. }
  pose proof (ensure_trailing_slash_length dir) as Hroot.
  unfold find_git_in_path_from at 1. cbn [find_git_in_path_loop]. rewrite Hw.
  unfold git_found_in, fits, wcslen. cbv zeta.
  set (r := ensure_trailing_slash dir) in *.
  unfold MAX_PATH in *.
  destruct (Nat.ltb_spec (length dir) cap); [|lia]. cbn [negb].
  destruct dir as [|c dir]; [contradiction|]. cbn [at_end].
  destruct (Nat.ltb_spec (length r) cap); [|lia]. cbn [negb].
  destruct (Nat.leb_spec 260 (length r + length gitexe)) as [Hbig|Hsmall].
  - destruct (Nat.ltb_spec (length r + length gitexe) 260); [lia|]. cbn [andb].
    unfold find_git_in_path_from.
    rewrite (find_git_in_path_loop_root cap os _ env' r (c :: dir)).
    apply find_git_in_path_loop_fuel; lia.
  - destruct (Nat.ltb_spec (length r + length gitexe) 260); [|lia]. cbn [andb].
    destruct (Nat.ltb_spec (length (r ++ gitexe)) cap) as [_|Hbad];
      [|rewrite length_app in Hbad; lia]. cbn [negb].
    destruct (Z.eqb (_waccess os (r ++ gitexe)) 0 && Nat.ltb 5 (length r)).
    + destruct (Nat.ltb (length (take (length r - 4) r ++ subdir)) cap); reflexivity.
    + unfold find_git_in_path_from.
      rewrite (find_git_in_path_loop_root cap os _ env' (r ++ gitexe) (c :: dir)).
      apply find_git_in_path_loop_fuel; lia.
Qed.

(** The directories before the first one the loop accepts are passed
    over. *)
Lemma find_git_in_path_from_skips cap os buf gitexe subdir skipped :
  forall items root,
  MAX_PATH <= cap ->
  Forall (item_ok (MAX_PATH - 1)) (map Plain skipped ++ items) ->
  Forall (fun s => git_found_in os gitexe s = false) skipped ->
  find_git_in_path_from cap os (render (map Plain skipped ++ items)) root
    buf gitexe subdir
  = find_git_in_path_from cap os (render items) root buf gitexe subdir.
Proof.
  induction skipped as [|s skipped IH]; intros items root Hcap Hok Hskip;
    [reflexivity|].
  inversion Hskip as [|? ? Hs Hskip']; subst.
  simpl map in *. simpl app in *.
  assert (Hok' : Forall (item_ok (MAX_PATH - 1)) (map Plain skipped ++ items))
    by (now inversion Hok).
  assert (Hnil : s <> []) by (inversion Hok as [|? ? Hi _]; subst; apply Hi).
  rewrite (find_git_in_path_from_step cap os _ (render (map Plain skipped ++ items))
             root s); auto.
  - rewrite Hs. rewrite (IH items s) by auto.
    unfold find_git_in_path_from. apply find_git_in_path_loop_root.
  - change (MAX_PATH - 1) with (S 258) in *. now apply walkpath_render_plain.
Qed.

(** X23.  PATH lists entries apart by single semicolons, each fitting the
    walker's buffer, the ones up to [d] unquoted; those before [d] are not
    accepted by the loop, [d] is: the probed file exists in it, and the
    length [n] of [d] ended by a separator is above 5 and, with the length
    of the file name, below [MAX_PATH].  Then the lookup returns 0 and
    [buf] holds the first [n - 4] characters of [d] ended by a separator,
    followed by [subdir], converted to UTF-8 with forward slashes.  The
    four characters are counted from the end: for a [d] that ends in [bin]
    or [cmd] they are that segment and its separator. *)
Theorem find_git_in_path_replaces_last_four
    (cap : nat) (os : World) (buf : git_str) (gitexe subdir : wstr)
    (skipped : list wstr) (d : wstr) (rest : list path_item) (utf8 : string) :
  MAX_PATH <= cap ->
  _wgetenv os (L "PATH") = Some (render (map Plain skipped ++ Plain d :: rest)) ->
  Forall (item_ok (MAX_PATH - 1)) (map Plain skipped ++ Plain d :: rest) ->
  Forall (fun s => git_found_in os gitexe s = false) skipped ->
  git_found_in os gitexe d = true ->
  length (take (length (ensure_trailing_slash d) - 4) (ensure_trailing_slash d)
          ++ subdir) < cap ->
  git_win32_path_to_utf8 os
    (take (length (ensure_trailing_slash d) - 4) (ensure_trailing_slash d) ++ subdir)
    = Some utf8 ->
  win32_find_git_in_path cap os buf gitexe subdir
  = Returns (0%Z, git_path_mkposix utf8).
Proof.
  intros Hcap Henv Hok Hskip Hd Hfit Hconv.
  unfold win32_find_git_in_path. rewrite Henv.
  rewrite find_git_in_path_from_skips by assumption.
  assert (Hok' : Forall (item_ok (MAX_PATH - 1)) (Plain d :: rest))
    by (apply Forall_app in Hok; tauto).
  assert (Hnil : d <> []) by (inversion Hok' as [|? ? Hi _]; subst; apply Hi).
  rewrite (find_git_in_path_from_step cap os _ (render rest) [] d); auto.
  - rewrite Hd. cbv zeta. unfold fits.
    destruct (Nat.ltb_spec
                (length (take (length (ensure_trailing_slash d) - 4)
                           (ensure_trailing_slash d) ++ subdir)) cap); [|lia].
    unfold win32_path_to_8. rewrite Hconv. reflexivity.
  - change (MAX_PATH - 1) with (S 258) in *. now apply walkpath_render_plain.
Qed.

Lemma find_git_in_path_replaces_last_four_witness :
  win32_find_git_in_path cells git_in_bin "" (L "git.exe") (L "\share\foo\")
  = Returns (0%Z, "C:/Tools/Git//share/foo/").
Proof.
  apply (find_git_in_path_replaces_last_four cells git_in_bin "" (L "git.exe")
           (L "\share\foo\") [] (L "C:\Tools\Git\bin") []
           "C:\Tools\Git\\share\foo\").
  - unfold cells, MAX_PATH; lia.
  - reflexivity.
  - repeat constructor; vm_compute; try discriminate; lia.
  - constructor.
  - reflexivity.
  - vm_compute; lia.
  - reflexivity.
Defined.

(** C3.  The substitution is commented as replacing the [bin] or [cmd]
    segment with [subdir], and the loop tests the existence of the file
    and the length of the directory only, never its last segment.  With
    git.exe in [C:\Git\libexec], a segment of eight characters with its
    separator, the lookup neither rejects the directory nor returns the
    directory above it with [subdir]: it returns 0 with the path cut
    inside the segment, [C:/Git/libe/share/foo/]. *)
Theorem find_git_in_path_cuts_inside_segment :
  win32_find_git_in_path cells git_in_libexec "" (L "git.exe") (L "\share\foo\")
    = Returns (0%Z, "C:/Git/libe/share/foo/")
  /\ ~ replaces_last_segment cells git_in_libexec
         (L "git.exe") (L "\share\foo\") (L "C:\Git\libexec").
Proof.
  assert (H : win32_find_git_in_path cells git_in_libexec "" (L "git.exe")
                (L "\share\foo\") = Returns (0%Z, "C:/Git/libe/share/foo/"))
    by (vm_compute; reflexivity).
  split; [exact H|].
  unfold replaces_last_segment. rewrite H.
  intros [E|E]; vm_compute in E; discriminate.
Qed.

(* ================================================================== *)
(** * Properties of [win32_find_git_in_registry] *)

Lemma registry_cbData_eq cap subdir :
  wcslen subdir <= cap -> (Z.of_nat cap * 2 < 2 ^ 32)%Z ->
  registry_cbData cap subdir = (2 * Z.of_nat (cap - wcslen subdir))%Z.
Proof.
  intros Hle Hcap. unfold registry_cbData.
  rewrite Z.mod_small by lia. lia.
Qed.

(** A string value that leaves room for the suffix is read and the suffix
    appended. *)
Lemma registry_path_reads cap (hKey : reg_key) (subdir v : wstr) :
  (Z.of_nat cap * 2 < 2 ^ 32)%Z ->
  hKey !! L "InstallLocation" = Some {| reg_ty := REG_SZ; reg_chars := v |} ->
  length v + wcslen subdir < cap ->
  RegQueryValueExW hKey (L "InstallLocation") (registry_cbData cap subdir)
    = (ERROR_SUCCESS, Some {| reg_ty := REG_SZ; reg_chars := v |})
  /\ registry_path cap hKey subdir = Returns (Some (v ++ subdir)).
Proof.
  intros Hcap Hval Hlen. unfold wcslen in *.
  pose proof (registry_cbData_eq cap subdir ltac:(unfold wcslen; lia) Hcap) as Hcb.
  unfold wcslen in Hcb.
  assert (Hq : RegQueryValueExW hKey (L "InstallLocation") (registry_cbData cap subdir)
               = (ERROR_SUCCESS, Some {| reg_ty := REG_SZ; reg_chars := v |})).
  { unfold RegQueryValueExW. rewrite Hval, Hcb. unfold reg_data_size. simpl reg_chars.
    destruct (Z.leb_spec (2 * (Z.of_nat (length v) + 1))
                         (2 * Z.of_nat (cap - length subdir))); [reflexivity|lia]. }
  split; [exact Hq|].
  unfold registry_path. rewrite Hq. unfold ERROR_SUCCESS, reg_data_size.
  simpl reg_chars. simpl reg_ty.
  destruct (Z.ltb_spec (Z.of_nat cap * 2) (2 * (Z.of_nat (length v) + 1))); [lia|].
  unfold fits. rewrite length_app.
  destruct (Nat.ltb_spec (length v + length subdir) cap); [reflexivity|lia].
Qed.

Lemma find_git_in_registry_reads cap os buf hive key subdir hKey p :
  RegOpenKeyExW os hive key = Some hKey ->
  registry_path cap hKey subdir = Returns (Some p) ->
  win32_find_git_in_registry cap os buf hive key subdir
  = Returns match git_win32_path_to_utf8 os p with
            | Some utf8 => (0%Z, git_path_mkposix utf8)
            | None => (GIT_ENOTFOUND, buf)
            end.
Proof.
  intros Hopen Hp. unfold win32_find_git_in_registry. rewrite Hopen, Hp.
  cbn [mbind outcome_bind]. unfold win32_path_to_8.
  destruct (git_win32_path_to_utf8 os p); reflexivity.
Qed.

(** C4.  For a buffer of [cap] wide characters and a suffix shorter than
    it: the size passed to the query is that of [cap - wcslen subdir] wide
    characters; a string value of exactly [cap - wcslen subdir - 1]
    characters is read and the suffix appended to it, and the result of the
    function is then that of the conversion; a value of one character more
    makes the query fail with [ERROR_MORE_DATA], and the function returns
    [GIT_ENOTFOUND] with [buf] as it was, no suffix appended. *)
Theorem registry_value_length_bound
    (cap : nat) (os : World) (buf : git_str) (hive : HKEY) (key subdir : wstr) :
  wcslen subdir < cap -> (Z.of_nat cap * 2 < 2 ^ 32)%Z ->
  registry_cbData cap subdir = (2 * Z.of_nat (cap - wcslen subdir))%Z
  /\ (forall (hKey : reg_key) (v : wstr),
        RegOpenKeyExW os hive key = Some hKey ->
        hKey !! L "InstallLocation" = Some {| reg_ty := REG_SZ; reg_chars := v |} ->
        length v = cap - wcslen subdir - 1 ->
        fst (RegQueryValueExW hKey (L "InstallLocation") (registry_cbData cap subdir))
          = ERROR_SUCCESS
        /\ registry_path cap hKey subdir = Returns (Some (v ++ subdir))
        /\ length (v ++ subdir) + 1 = cap
        /\ win32_find_git_in_registry cap os buf hive key subdir
           = Returns match git_win32_path_to_utf8 os (v ++ subdir) with
                     | Some utf8 => (0%Z, git_path_mkposix utf8)
                     | None => (GIT_ENOTFOUND, buf)
                     end)
  /\ (forall (hKey : reg_key) (v : wstr),
        RegOpenKeyExW os hive key = Some hKey ->
        hKey !! L "InstallLocation" = Some {| reg_ty := REG_SZ; reg_chars := v |} ->
        length v = cap - wcslen subdir ->
        fst (RegQueryValueExW hKey (L "InstallLocation") (registry_cbData cap subdir))
          = ERROR_MORE_DATA
        /\ registry_path cap hKey subdir = Returns None
        /\ win32_find_git_in_registry cap os buf hive key subdir
           = Returns (GIT_ENOTFOUND, buf)).
Proof.
  intros Hsub Hcap.
  pose proof (registry_cbData_eq cap subdir ltac:(lia) Hcap) as Hcb.
  split; [exact Hcb|]. split.
  - intros hKey v Hopen Hval Hlen.
    destruct (registry_path_reads cap hKey subdir v Hcap Hval ltac:(lia)) as [Hq Hp].
    split; [now rewrite Hq|]. split; [exact Hp|].
    split; [rewrite length_app; unfold wcslen in *; lia|].
    now apply find_git_in_registry_reads with (hKey := hKey).
  - intros hKey v Hopen Hval Hlen. unfold wcslen in *.
    assert (Hq : RegQueryValueExW hKey (L "InstallLocation") (registry_cbData cap subdir)
                 = (ERROR_MORE_DATA, None)).
    { unfold RegQueryValueExW. rewrite Hval, Hcb. unfold reg_data_size, wcslen.
      simpl reg_chars.
      destruct (Z.leb_spec (2 * (Z.of_nat (length v) + 1))
                           (2 * Z.of_nat (cap - length subdir))); [lia|reflexivity]. }
    assert (Hp : registry_path cap hKey subdir = Returns None).
    { unfold registry_path. rewrite Hq. reflexivity. }
    split; [now rewrite Hq|]. split; [exact Hp|].
    unfold win32_find_git_in_registry. rewrite Hopen, Hp. reflexivity.
Qed.

Lemma registry_value_length_bound_witness :
  win32_find_git_in_registry cells (install_location_of_length 4097) "old"
    HKEY_CURRENT_USER REG_MSYSGIT_INSTALL_LOCAL (L "etc\")
    = Returns (0%Z, git_path_mkposix
                      (string_of_list_ascii
                         (map ascii_of_N (long_dir 4097 ++ L "etc\"))))
  /\ win32_find_git_in_registry cells (install_location_of_length 4098) "old"
       HKEY_CURRENT_USER REG_MSYSGIT_INSTALL_LOCAL (L "etc\")
     = Returns (GIT_ENOTFOUND, "old").
Proof.
  split.
  - destruct (registry_value_length_bound cells (install_location_of_length 4097)
                "old" HKEY_CURRENT_USER REG_MSYSGIT_INSTALL_LOCAL (L "etc\")
                ltac:(vm_compute; lia) ltac:(vm_compute; reflexivity))
      as (_ & H & _).
    destruct (H _ (long_dir 4097) eq_refl ltac:(vm_compute; reflexivity)
                ltac:(vm_compute; reflexivity)) as (_ & _ & _ & E).
    rewrite E. vm_compute. reflexivity.
  - destruct (registry_value_length_bound cells (install_location_of_length 4098)
                "old" HKEY_CURRENT_USER REG_MSYSGIT_INSTALL_LOCAL (L "etc\")
                ltac:(vm_compute; lia) ltac:(vm_compute; reflexivity))
      as (_ & _ & H).
    destruct (H _ (long_dir 4098) eq_refl ltac:(vm_compute; reflexivity)
                ltac:(vm_compute; reflexivity)) as (_ & _ & E).
    exact E.
Defined.

(* ================================================================== *)
(** * Properties of [git_win32__expand_path] and [win32_find_existing_dirs] *)

(** C5, as amended.  The expansion fails exactly when the primitive reports
    zero or a length above the capacity; a reported length equal to the
    capacity succeeds (the length reported counts the terminating NUL, so
    the string then fills the array).  On failure no path is produced; on
    success the path is the one the primitive left, with the reported
    length. *)
Theorem expand_path_fails_iff (cap : nat) (os : World) (src : wstr) :
  let n := fst (ExpandEnvironmentStringsW os src cap) in
  (git_win32__expand_path cap os src = None <-> n = 0 \/ cap < n)
  /\ (git_win32__expand_path cap os src <> None ->
      git_win32__expand_path cap os src
        = Some {| path := snd (ExpandEnvironmentStringsW os src cap); len := n |}
      /\ 0 < n <= cap).
Proof.
  unfold git_win32__expand_path.
  destruct (ExpandEnvironmentStringsW os src cap) as [n p]; simpl.
  destruct (Nat.eqb_spec n 0); destruct (Nat.ltb_spec cap n); simpl.
  - split; [split; [lia | reflexivity] | congruence].
  - split; [split; [lia | reflexivity] | congruence].
  - split; [split; [lia | reflexivity] | congruence].
  - split; [split; [discriminate | lia] |].
    intros _. split; [reflexivity | lia].
Qed.

(** Over an environment block, a successful expansion is never cut: it is
    the whole expansion, and it fits with its NUL. *)
Lemma expand_path_whole cap env files reg src r :
  git_win32__expand_path cap (windows env files reg) src = Some r ->
  path r = expand_refs env None src /\ length (path r) < cap.
Proof.
  unfold git_win32__expand_path, windows, expand_environment_strings.
  cbn [ExpandEnvironmentStringsW].
  set (e := expand_refs env None src).
  destruct (Nat.leb_spec (S (length e)) cap) as [Hle|Hgt].
  - destruct (Nat.ltb_spec cap (S (length e))); [lia|].
    cbn [Nat.eqb orb]. intros [= <-]. cbn [path]. split; [reflexivity|lia].
  - destruct (Nat.ltb_spec cap (S (length e))); [|lia].
    cbn [Nat.eqb orb]. discriminate.
Qed.

(** There the expansion fails exactly when the expanded string has as many
    characters as the array has cells, or more: with its NUL it needs one
    cell more than it has characters. *)
Lemma expand_path_fails_when_too_long cap env files reg src :
  git_win32__expand_path cap (windows env files reg) src = None
  <-> cap <= length (expand_refs env None src).
Proof.
  unfold git_win32__expand_path, windows, expand_environment_strings.
  cbn [ExpandEnvironmentStringsW].
  set (e := expand_refs env None src).
  destruct (Nat.ltb_spec cap (S (length e))); cbn [Nat.eqb orb];
    split; intros H'; try reflexivity; try discriminate; lia.
Qed.

(** C5, as stated, fails: the primitive reports a length equal to the
    capacity and the expansion succeeds, with the whole path. *)
Lemma expand_path_at_capacity :
  fst (ExpandEnvironmentStringsW empty_machine template_filling_buffer cells) = cells
  /\ git_win32__expand_path cells empty_machine template_filling_buffer
     = Some {| path := template_filling_buffer; len := cells |}.
Proof. split; vm_compute; reflexivity. Qed.

Lemma find_existing_dirs_loop_app cap os pre post : forall out buf,
  find_existing_dirs_loop cap os (pre ++ post) out buf
  = find_existing_dirs_loop cap os post
      (fst (find_existing_dirs_loop cap os pre out buf))
      (snd (find_existing_dirs_loop cap os pre out buf)).
Proof.
  induction pre as [|t pre IH]; intros out buf; [reflexivity|].
  simpl app. cbn [find_existing_dirs_loop].
  destruct (git_win32__expand_path cap os t) as [p16|]; [|apply IH].
  destruct (_ && _); apply IH.
Qed.

(** A template whose expansion starts with a percent sign is passed over:
    neither [out] nor [buf] changes. *)
Lemma find_existing_dirs_loop_percent cap os t post out buf :
  (forall r, git_win32__expand_path cap os t = Some r -> deref (path r) = wc_percent) ->
  find_existing_dirs_loop cap os (t :: post) out buf
  = find_existing_dirs_loop cap os post out buf.
Proof.
  intros H. cbn [find_existing_dirs_loop].
  destruct (git_win32__expand_path cap os t) as [p16|]; [|reflexivity].
  rewrite (H p16 eq_refl). reflexivity.
Qed.

Lemma find_existing_dirs_percent cap os out pre t post :
  (forall r, git_win32__expand_path cap os t = Some r -> deref (path r) = wc_percent) ->
  win32_find_existing_dirs cap os out (pre ++ t :: post)
  = win32_find_existing_dirs cap os out (pre ++ post).
Proof.
  intros H. unfold win32_find_existing_dirs.
  rewrite !find_existing_dirs_loop_app, find_existing_dirs_loop_percent by exact H.
  reflexivity.
Qed.

(** A reference to a variable that is not defined is left as written. *)
Lemma expand_refs_name (env : gmap wstr wstr) (name rest : wstr) : forall acc : wstr,
  Forall (fun c => c <> wc_percent) name ->
  expand_refs env (Some acc) (name ++ wc_percent :: rest)
  = match env !! (rev acc ++ name) with
    | Some v => v ++ expand_refs env None rest
    | None => wc_percent :: (rev acc ++ name) ++ expand_refs env (Some []) rest
    end.
Proof.
  induction name as [|c name IH]; intros acc Hne.
  - simpl. rewrite app_nil_r. reflexivity.
  - inversion Hne as [|? ? Hc Hne']; subst. simpl.
    differs c wc_percent.
    rewrite IH by assumption. simpl. rewrite <- !app_assoc. reflexivity.
Qed.

Lemma expand_refs_undefined_head (env : gmap wstr wstr) (name rest : wstr) :
  Forall (fun c => c <> wc_percent) name -> env !! name = None ->
  deref (expand_refs env None (wc_percent :: name ++ wc_percent :: rest)) = wc_percent.
Proof.
  intros Hne Hundef.
  change (expand_refs env None (wc_percent :: name ++ wc_percent :: rest))
    with (expand_refs env (Some []) (name ++ wc_percent :: rest)).
  rewrite expand_refs_name by assumption.
  change (rev [] ++ name) with name. now rewrite Hundef.
Qed.

(** C6, as amended.  A template that starts with a reference to a variable
    that is not defined contributes nothing: the output is the one of the
    list without that template.  (The test is on the first character of
    the expansion only; nothing is said of a template whose first variable
    is defined.) *)
Theorem find_existing_dirs_skips_undefined
    (cap : nat) (env : gmap wstr wstr) (files : list wstr)
    (reg : HKEY -> wstr -> option reg_key) (out : git_str)
    (pre post : list wstr) (name rest : wstr) :
  Forall (fun c => c <> wc_percent) name ->
  env !! name = None ->
  win32_find_existing_dirs cap (windows env files reg) out
    (pre ++ (wc_percent :: name ++ wc_percent :: rest) :: post)
  = win32_find_existing_dirs cap (windows env files reg) out (pre ++ post).
Proof.
  intros Hne Hundef. apply find_existing_dirs_percent.
  intros r Hr. apply expand_path_whole in Hr as [-> _].
  now apply expand_refs_undefined_head.
Qed.

Lemma find_existing_dirs_skips_undefined_witness :
  _waccess nothing_defined (L "%APPDATA%\git") = 0%Z
  /\ git_win32__find_xdg_dirs cells nothing_defined "old"
     = win32_find_existing_dirs cells nothing_defined "old"
         [L "%XDG_CONFIG_HOME%\git"; L "%LOCALAPPDATA%\git"; L "%HOME%\.config\git";
          L "%HOMEDRIVE%%HOMEPATH%\.config\git"; L "%USERPROFILE%\.config\git"].
Proof.
  split; [reflexivity|].
  exact (find_existing_dirs_skips_undefined cells ∅ [L "%APPDATA%\git"] no_registry
           "old" [L "%XDG_CONFIG_HOME%\git"]
           [L "%LOCALAPPDATA%\git"; L "%HOME%\.config\git";
            L "%HOMEDRIVE%%HOMEPATH%\.config\git"; L "%USERPROFILE%\.config\git"]
           (L "APPDATA") (L "\git")
           ltac:(repeat constructor; discriminate) ltac:(reflexivity)).
Defined.

(** C6, as stated, fails: HOMEPATH is not defined, the template
    [%HOMEDRIVE%%HOMEPATH%\.config\git] expands to a path that starts with
    the value of HOMEDRIVE, a directory of that name exists, and the entry
    with the unexpanded reference is returned. *)
Lemma find_xdg_dirs_returns_unexpanded_reference :
  _wgetenv homepath_undefined (L "HOMEPATH") = None
  /\ In (L "%HOMEDRIVE%%HOMEPATH%\.config\git") xdg_tmpls
  /\ git_win32__find_xdg_dirs cells homepath_undefined ""
     = (0%Z, "C:%HOMEPATH%/.config/git").
Proof.
  split; [reflexivity|]. split; [|vm_compute; reflexivity].
  unfold xdg_tmpls. simpl. tauto.
Qed.

(* ================================================================== *)
(** * Properties of [git_win32__find_system_dirs] *)

(** C7.  The lookup of git.exe finds it and leaves [C:/A/etc/] in [buf].
    The lookup of git.cmd finds it in a directory whose name cannot be
    converted; [win32_find_git_in_path] does not look at the result of
    [win32_path_to_8] and returns 0 with [buf] as it was (run by itself it
    returns 0 with an empty buffer, so it has no entry of its own).
    [git_win32__find_system_dirs] then joins the content of [buf], the
    entry of the first source, a second time.  The sources call for the
    one entry. *)
Theorem find_system_dirs_repeats_entry :
  git_win32_path_to_utf8 git_cmd_in_unconvertible_dir
    (L "C:\" ++ [55296%N] ++ L "\etc\") = None
  /\ map own_entry (system_sources cells true git_cmd_in_unconvertible_dir (L "etc\"))
     = [Returns (Some "C:/A/etc/"); Returns None; Returns None; Returns None]
  /\ join_sources (system_sources cells true git_cmd_in_unconvertible_dir (L "etc\")) ""
     = Returns (0%Z, "C:/A/etc/")
  /\ win32_find_git_in_path cells git_cmd_in_unconvertible_dir "C:/A/etc/"
       (L "git.cmd") (L "etc\") = Returns (0%Z, "C:/A/etc/")
  /\ git_win32__find_system_dirs cells true git_cmd_in_unconvertible_dir "old" (L "etc\")
     = Returns (0%Z, "C:/A/etc/;C:/A/etc/").
Proof. repeat split; vm_compute; reflexivity. Qed.

(** ** What the sources do to [buf] *)

Lemma find_git_in_path_loop_action cap os gitexe subdir :
  forall fuel env root,
  buf_action (fun b => find_git_in_path_loop cap os fuel env root b gitexe subdir).
Proof.
  assert (Hnf : buf_action (fun b => Returns (GIT_ENOTFOUND, b))).
  { left. exists GIT_ENOTFOUND. split; [discriminate|reflexivity]. }
  assert (Hov : buf_action (fun _ => Overrun)) by (do 3 right; reflexivity).
  induction fuel as [|fuel IH]; intros env root; cbn [find_git_in_path_loop].
  - exact Hnf.
  - destruct (win32_walkpath env root (MAX_PATH - 1)) as [next dir].
    destruct (negb (fits cap dir)); [exact Hov|].
    destruct next as [env'|]; [|exact Hnf].
    destruct (at_end dir); [exact Hnf|].
    destruct (negb (fits cap (ensure_trailing_slash dir))); [exact Hov|].
    destruct (Nat.leb _ _); [apply IH|].
    destruct (negb (fits cap (ensure_trailing_slash dir ++ gitexe))); [exact Hov|].
    destruct (_ && _); [|apply IH].
    destruct (negb (fits cap _)); [exact Hov|].
    unfold win32_path_to_8.
    destruct (git_win32_path_to_utf8 os _) as [utf8|].
    + right; left. exists (git_path_mkposix utf8). intros b. reflexivity.
    + right; right; left. intros b. reflexivity.
Qed.

Lemma find_git_in_path_action cap os gitexe subdir :
  buf_action (fun b => win32_find_git_in_path cap os b gitexe subdir).
Proof.
  unfold win32_find_git_in_path, find_git_in_path_from.
  destruct (_wgetenv os (L "PATH")) as [env|].
  - apply find_git_in_path_loop_action.
  - left. exists (-1)%Z. split; [discriminate|reflexivity].
Qed.

Lemma find_git_in_registry_clean cap os hive key subdir :
  clean (fun b => win32_find_git_in_registry cap os b hive key subdir).
Proof.
  intros b. unfold win32_find_git_in_registry.
  destruct (RegOpenKeyExW os hive key) as [hKey|]; [|reflexivity].
  destruct (registry_path cap hKey subdir) as [[p|]|]; try reflexivity.
  cbn [mbind outcome_bind]. unfold win32_path_to_8.
  destruct (git_win32_path_to_utf8 os p); reflexivity.
Qed.

(** The lookup along PATH is clean unless it returns 0 without filling
    [buf]. *)
Lemma find_git_in_path_clean cap os gitexe subdir :
  win32_find_git_in_path cap os "" gitexe subdir <> Returns (0%Z, "") ->
  clean (fun b => win32_find_git_in_path cap os b gitexe subdir).
Proof.
  intros Hfill b.
  destruct (find_git_in_path_action cap os gitexe subdir)
    as [(r & Hr & H) | [(x & H) | [H | H]]];
    cbv beta in H.
  - rewrite (H b), (H ""). unfold own_entry, hit. cbn [mbind outcome_bind].
    destruct (Z.eqb_spec r 0); [contradiction|reflexivity].
  - rewrite (H b), (H ""). reflexivity.
  - rewrite (H "") in Hfill. contradiction.
  - rewrite (H b), (H ""). reflexivity.
Qed.

(** ** The output is the join of the entries *)

Lemma substring_whole s : substring 0 (String.length s) s = s.
Proof. induction s as [|c s IH]; simpl; [reflexivity|now rewrite IH]. Qed.

Lemma find_system_dirs_run cap win64 os out subdir :
  git_win32__find_system_dirs cap win64 os out subdir
  = run_sources
      [ (fun b => win32_find_git_in_path cap os b (L "git.exe") subdir);
        (fun b => win32_find_git_in_path cap os b (L "git.cmd") subdir);
        (fun b => win32_find_git_in_registry cap os b HKEY_CURRENT_USER
                    REG_MSYSGIT_INSTALL_LOCAL subdir);
        (fun b => win32_find_git_in_registry cap os b HKEY_LOCAL_MACHINE
                    (REG_MSYSGIT_INSTALL win64) subdir) ]
      "" "".
Proof.
  unfold git_win32__find_system_dirs. cbn [run_sources].
  destruct (win32_find_git_in_path cap os "" (L "git.exe") subdir)
    as [[r1 b1]|]; [|reflexivity].
  cbn [mbind outcome_bind].
  assert (Hout : (if hit r1 b1 then git_str_set out b1 (git_str_size b1)
                  else git_str_clear out)
                 = (if hit r1 b1 then git_str_join GIT_PATH_LIST_SEPARATOR "" b1
                    else "")).
  { destruct (hit r1 b1); [apply substring_whole | reflexivity]. }
  rewrite Hout.
  destruct (win32_find_git_in_path cap os b1 (L "git.cmd") subdir)
    as [[r2 b2]|]; [|reflexivity].
  cbn [mbind outcome_bind].
  destruct (win32_find_git_in_registry cap os b2 _ _ _) as [[r3 b3]|]; [|reflexivity].
  cbn [mbind outcome_bind].
  destruct (win32_find_git_in_registry cap os b3 _ _ _) as [[r4 b4]|]; reflexivity.
Qed.

Lemma run_sources_clean fs :
  Forall clean fs ->
  forall buf out, run_sources fs buf out = join_sources (map (fun f => f "") fs) out.
Proof.
  induction 1 as [|f fs Hf Hfs IH]; intros buf out; [reflexivity|].
  cbn [run_sources map join_sources]. rewrite <- (Hf buf).
  destruct (f buf) as [[r b]|]; [|reflexivity].
  cbn [own_entry mbind outcome_bind]. rewrite IH.
  destruct (hit r b); reflexivity.
Qed.

Lemma run_sources_head f fs out :
  Forall clean fs ->
  run_sources (f :: fs) "" out = join_sources (f "" :: map (fun g => g "") fs) out.
Proof.
  intros Hfs. cbn [run_sources join_sources].
  destruct (f "") as [[r b]|]; [|reflexivity].
  cbn [own_entry mbind outcome_bind]. rewrite (run_sources_clean fs Hfs).
  destruct (hit r b); reflexivity.
Qed.

(** When the lookup of git.cmd, if it returns 0, has filled [buf], the
    output is the join of the entries of the four sources, in the order of
    the calls, and what [out] held before is gone. *)
Lemma find_system_dirs_joins_sources cap win64 os out subdir :
  win32_find_git_in_path cap os "" (L "git.cmd") subdir <> Returns (0%Z, "") ->
  git_win32__find_system_dirs cap win64 os out subdir
  = join_sources (system_sources cap win64 os subdir) "".
Proof.
  intros Hcmd. rewrite find_system_dirs_run, run_sources_head; [reflexivity|].
  repeat constructor;
    [now apply find_git_in_path_clean | apply find_git_in_registry_clean ..].
Qed.

Lemma find_git_in_path_no_env cap os buf gitexe subdir :
  _wgetenv os (L "PATH") = None ->
  win32_find_git_in_path cap os buf gitexe subdir = Returns ((-1)%Z, buf).
Proof. intros H. unfold win32_find_git_in_path. now rewrite H. Qed.

Lemma find_git_in_registry_no_key cap os buf hive key subdir :
  RegOpenKeyExW os hive key = None ->
  win32_find_git_in_registry cap os buf hive key subdir = Returns (GIT_ENOTFOUND, buf).
Proof. intros H. unfold win32_find_git_in_registry. now rewrite H. Qed.

(** C1, as amended.  PATH is not set; one record is present, under the
    per-user key or under the machine-wide key, with the string value
    InstallLocation [C:\Git\]; the conversion of the path to UTF-8 gives its
    bytes.  For every content of [out], [git_win32__find_system_dirs] with
    the suffix [\mingw64\share\git\] returns 0 and the one entry
    [C:/Git//mingw64/share/git/]: the value and the suffix are joined as
    they are, and both separators at the joint are rewritten and kept. *)
Theorem find_system_dirs_one_record
    (cap : nat) (win64 : bool) (os : World) (out : git_str) (hKey : reg_key) :
  27 <= cap -> (Z.of_nat cap * 2 < 2 ^ 32)%Z ->
  _wgetenv os (L "PATH") = None ->
  hKey !! L "InstallLocation" = Some {| reg_ty := REG_SZ; reg_chars := L "C:\Git\" |} ->
  (RegOpenKeyExW os HKEY_CURRENT_USER REG_MSYSGIT_INSTALL_LOCAL = Some hKey
   /\ RegOpenKeyExW os HKEY_LOCAL_MACHINE (REG_MSYSGIT_INSTALL win64) = None)
  \/ (RegOpenKeyExW os HKEY_CURRENT_USER REG_MSYSGIT_INSTALL_LOCAL = None
      /\ RegOpenKeyExW os HKEY_LOCAL_MACHINE (REG_MSYSGIT_INSTALL win64) = Some hKey) ->
  git_win32_path_to_utf8 os (L "C:\Git\\mingw64\share\git\")
    = Some "C:\Git\\mingw64\share\git\" ->
  git_win32__find_system_dirs cap win64 os out (L "\mingw64\share\git\")
  = Returns (0%Z, "C:/Git//mingw64/share/git/").
Proof.
  intros Hcap Hwrap Henv Hval Hrec Hconv.
  assert (Hp : registry_path cap hKey (L "\mingw64\share\git\")
               = Returns (Some (L "C:\Git\\mingw64\share\git\"))).
  { apply (registry_path_reads cap hKey (L "\mingw64\share\git\") (L "C:\Git\"));
      auto; simpl; lia. }
  rewrite find_system_dirs_joins_sources
    by (rewrite find_git_in_path_no_env by assumption; discriminate).
  unfold system_sources.
  rewrite !find_git_in_path_no_env by assumption.
  destruct Hrec as [[Hu Hm] | [Hu Hm]].
  - rewrite (find_git_in_registry_reads _ _ _ _ _ _ _ _ Hu Hp), Hconv.
    rewrite (find_git_in_registry_no_key _ _ _ _ _ _ Hm). reflexivity.
  - rewrite (find_git_in_registry_reads _ _ _ _ _ _ _ _ Hm Hp), Hconv.
    rewrite (find_git_in_registry_no_key _ _ _ _ _ _ Hu). reflexivity.
Qed.

Lemma find_system_dirs_one_record_witness :
  git_win32__find_system_dirs cells true one_install_record "old"
    (L "\mingw64\share\git\")
  = Returns (0%Z, "C:/Git//mingw64/share/git/").
Proof.
  apply (find_system_dirs_one_record cells true one_install_record "old"
           {[ L "InstallLocation" := {| reg_ty := REG_SZ; reg_chars := L "C:\Git\" |} ]}).
  - unfold cells; lia.
  - vm_compute; reflexivity.
  - reflexivity.
  - reflexivity.
  - left. split; reflexivity.
  - reflexivity.
Defined.

(** C1, as stated, fails: with the one record under the per-user key the
    entry returned holds two slashes after [C:/Git]. *)
Lemma find_system_dirs_keeps_both_separators :
  _wgetenv one_install_record (L "PATH") = None
  /\ git_win32__find_system_dirs cells true one_install_record ""
       (L "\mingw64\share\git\")
     = Returns (0%Z, "C:/Git//mingw64/share/git/")
  /\ git_win32__find_system_dirs cells true one_install_record ""
       (L "\mingw64\share\git\")
     <> Returns (0%Z, "C:/Git/mingw64/share/git/").
Proof.
  split; [reflexivity|].
  assert (H : git_win32__find_system_dirs cells true one_install_record ""
                (L "\mingw64\share\git\")
              = Returns (0%Z, "C:/Git//mingw64/share/git/"))
    by (vm_compute; reflexivity).
  split; [exact H|]. rewrite H. discriminate.
Qed.

(* ================================================================== *)
(** * Further properties of [win32_walkpath] *)

Lemma walk_skip_split term p :
  term = wc_quote \/ term = wc_semicolon ->
  exists sk, p = sk ++ walk_skip term p
             /\ Forall (fun c => c = wc_quote \/ c = wc_semicolon) sk.
Proof.
  intros Hterm. induction p as [|c p (sk & Hp & Hsk)]; simpl.
  - exists []. split; [reflexivity|constructor].
  - destruct (N.eqb_spec c term) as [->|]; simpl.
    + exists (term :: sk). split; [simpl; f_equal; exact Hp|]. constructor; tauto.
    + destruct (N.eqb_spec c wc_semicolon) as [->|].
      * exists (wc_semicolon :: sk). split; [simpl; f_equal; exact Hp|].
        constructor; tauto.
      * exists []. split; [reflexivity|constructor].
Qed.

Lemma walk_term_split path :
  exists q, path = q ++ snd (walk_term path)
            /\ (q = [] \/ q = [wc_quote])
            /\ (fst (walk_term path) = wc_quote \/ fst (walk_term path) = wc_semicolon).
Proof.
  destruct path as [|c p]; simpl.
  - exists []. auto.
  - destruct (N.eqb_spec c wc_quote) as [->|]; simpl.
    + exists [wc_quote]. auto.
    + exists []. auto.
Qed.

(** X1.  One call consumes a prefix of the string made of, in this order: an
    opening quote or nothing, the entry returned, and a run of quotes and
    semicolons.  The pointer returned is the rest of the string, and NULL
    exactly when that prefix is empty: the entry is a piece of the string,
    and nothing of the string is lost between two calls but an opening
    quote and separators. *)
Theorem walkpath_consumes_prefix (path buf : wstr) (n : nat) :
  exists q sk rest,
    path = q ++ snd (win32_walkpath path buf (S n)) ++ sk ++ rest
    /\ (q = [] \/ q = [wc_quote])
    /\ Forall (fun c => c = wc_quote \/ c = wc_semicolon) sk
    /\ fst (win32_walkpath path buf (S n))
       = if at_end (q ++ snd (win32_walkpath path buf (S n)) ++ sk)
         then None else Some rest.
Proof.
  destruct (walk_term_split path) as (q & Hq & Hqs & Hterm).
  destruct (walk_term path) as [term p1] eqn:Ht. simpl in Hq, Hterm.
  pose proof (walk_copy_app term p1 n) as Hc.
  destruct (walk_copy term p1 n) as [copied p2] eqn:Hcopy. simpl in Hc.
  destruct (walk_skip_split term p2 Hterm) as (sk & Hsk & Hall).
  rewrite (walkpath_eq path buf n term p1 copied p2 Ht Hcopy). simpl.
  exists q, sk, (walk_skip term p2).
  assert (Hpath : path = q ++ copied ++ sk ++ walk_skip term p2)
    by (rewrite Hq, <- Hc, Hsk at 1; reflexivity).
  split; [exact Hpath|]. split; [exact Hqs|]. split; [exact Hall|].
  apply (f_equal length) in Hpath. rewrite !length_app in Hpath.
  destruct (Nat.eqb_spec (length (walk_skip term p2)) (length path)) as [E|E].
  - destruct q; [destruct copied; [destruct sk; [reflexivity|]|]|];
      simpl in Hpath; lia.
  - destruct q; [destruct copied; [destruct sk; [|reflexivity]|reflexivity]|reflexivity].
    simpl in Hpath. lia.
Qed.

(** X2.  With room for at least one character ([buflen] from 2) the walker
    returns NULL on the empty string and on no other: the loop of the
    caller does not end before the end of PATH for lack of progress. *)
Theorem walkpath_null_iff_empty (path buf : wstr) (n : nat) :
  fst (win32_walkpath path buf (S (S n))) = None <-> path = [].
Proof.
  split.
  - destruct path as [|c p]; [reflexivity|]. intros H. exfalso.
    destruct (win32_walkpath (c :: p) buf (S (S n))) as [[p'|] entry] eqn:E;
      [discriminate|]. clear H.
    unfold win32_walkpath in E. simpl walk_term in E.
    destruct (N.eqb_spec c wc_quote).
    + pose proof (walk_copy_rest_length c p (S n)) as H1.
      destruct (walk_copy c p (S n)) as [cp p2]. simpl in H1.
      pose proof (walk_skip_length c p2) as H2.
      destruct (Nat.eqb_spec (length (walk_skip c p2)) (length (c :: p)));
        [simpl in *; lia | discriminate].
    + simpl walk_copy in E.
      destruct (N.eqb_spec c wc_semicolon) as [->|].
      * simpl walk_skip in E.
        pose proof (walk_skip_length wc_semicolon p) as H2.
        destruct (Nat.eqb_spec (length (walk_skip wc_semicolon p))
                               (length (wc_semicolon :: p)));
          [simpl in *; lia | discriminate].
      * pose proof (walk_copy_rest_length wc_semicolon p n) as H1.
        destruct (walk_copy wc_semicolon p n) as [cp p2]. simpl in H1.
        pose proof (walk_skip_length wc_semicolon p2) as H2.
        destruct (Nat.eqb_spec (length (walk_skip wc_semicolon p2)) (length (c :: p)));
          [simpl in *; lia | discriminate].
  - intros ->. reflexivity.
Qed.

Lemma walk_skip_head term p :
  term <> 0%N ->
  deref (walk_skip term p) <> term /\ deref (walk_skip term p) <> wc_semicolon.
Proof.
  intros Hterm. induction p as [|c p IH]; simpl.
  - split; [congruence | discriminate].
  - destruct (N.eqb_spec c term); simpl; [exact IH|].
    destruct (N.eqb_spec c wc_semicolon); simpl; [exact IH|]. split; assumption.
Qed.

(** X3.  The pointer a call returns never points at a semicolon: a run of
    semicolons is skipped whole, so only the first call on a PATH value can
    meet one and report an empty plain entry. *)
Theorem walkpath_next_not_semicolon (path buf path' entry : wstr) (buflen : nat) :
  win32_walkpath path buf buflen = (Some path', entry) ->
  deref path' <> wc_semicolon.
Proof.
  unfold win32_walkpath. destruct buflen as [|n]; [discriminate|].
  destruct (walk_term_split path) as (_ & _ & _ & Hterm).
  destruct (walk_term path) as [term p1]. simpl in Hterm.
  destruct (walk_copy term p1 n) as [copied p2].
  destruct (Nat.eqb (length (walk_skip term p2)) (length path)); [discriminate|].
  intros [= <- _]. apply walk_skip_head.
  destruct Hterm as [-> | ->]; discriminate.
Qed.

Lemma walkpath_next_not_semicolon_witness :
  win32_walkpath (L "C:\a;;;D:\b") [] (MAX_PATH - 1) = (Some (L "D:\b"), L "C:\a")
  /\ deref (L "D:\b") <> wc_semicolon.
Proof.
  assert (H : win32_walkpath (L "C:\a;;;D:\b") [] (MAX_PATH - 1)
              = (Some (L "D:\b"), L "C:\a")) by (vm_compute; reflexivity).
  split; [exact H|].
  exact (walkpath_next_not_semicolon _ _ _ _ _ H).
Defined.

Lemma walk_copy_no_term term p : forall n,
  Forall (fun c => c <> term) (fst (walk_copy term p n)).
Proof.
  induction p as [|c p IH]; intros [|n]; simpl; try constructor.
  destruct (N.eqb_spec c term); simpl; [constructor|].
  specialize (IH n). destruct (walk_copy term p n) as [cp r]. simpl in *.
  constructor; assumption.
Qed.

(** X4.  The entry returned holds at most [buflen - 1] characters; for a
    string that does not start with a quote it holds no semicolon, and for
    one that does it holds no quote. *)
Theorem walkpath_entry_within_terminators (path buf : wstr) (n : nat) :
  length (snd (win32_walkpath path buf (S n))) <= n
  /\ (deref path <> wc_quote ->
      Forall (fun c => c <> wc_semicolon) (snd (win32_walkpath path buf (S n))))
  /\ (deref path = wc_quote ->
      Forall (fun c => c <> wc_quote) (snd (win32_walkpath path buf (S n)))).
Proof.
  split; [apply walkpath_entry_length|].
  split; intros Hq.
  - assert (Ht : walk_term path = (wc_semicolon, path)).
    { destruct path as [|c p]; [reflexivity|]. simpl in *.
      destruct (N.eqb_spec c wc_quote); [contradiction|reflexivity]. }
    pose proof (walk_copy_no_term wc_semicolon path n) as H.
    destruct (walk_copy wc_semicolon path n) as [copied p2] eqn:Hc.
    rewrite (walkpath_eq path buf n _ _ _ _ Ht Hc). exact H.
  - destruct path as [|c p]; [discriminate|]. simpl in Hq. subst c.
    pose proof (walk_copy_no_term wc_quote p n) as H.
    destruct (walk_copy wc_quote p n) as [copied p2] eqn:Hc.
    rewrite (walkpath_eq (wc_quote :: p) buf n wc_quote p copied p2 eq_refl Hc).
    exact H.
Qed.

Lemma walk_skip_run k rest :
  rest = [] \/ deref rest <> wc_semicolon ->
  walk_skip wc_semicolon (repeat wc_semicolon k ++ rest) = rest.
Proof.
  intros Hrest. induction k as [|k IH]; simpl.
  - apply walk_skip_stop. destruct Hrest; [left|right]; tauto.
  - exact IH.
Qed.

Lemma render_runs_head buflen entries :
  Forall (fun ek => plain_ok buflen (fst ek)) entries ->
  render_runs entries = [] \/ deref (render_runs entries) <> wc_semicolon.
Proof.
  destruct entries as [|[e k] rest]; [left; reflexivity|].
  intros H. right. inversion H as [|? ? (Hnil & Hne & _) _]; subst. simpl in *.
  destruct e as [|c e]; [contradiction|]. simpl. now inversion Hne.
Qed.

(** X5.  Runs of semicolons separate entries like one semicolon: on a PATH
    value of plain entries, each followed by one or more semicolons, the
    calls return the entries and nothing else, so neither two semicolons in
    a row nor semicolons at the end make an empty entry. *)
Theorem walk_path_skips_semicolon_runs (n : nat) (entries : list (wstr * nat)) :
  Forall (fun ek => plain_ok (S n) (fst ek)) entries ->
  walk_path (render_runs entries) (S n) = map fst entries.
Proof.
  induction entries as [|[e k] entries IH]; intros Hok.
  - rewrite walk_path_step. simpl render_runs. now rewrite walkpath_nil.
  - inversion Hok as [|? ? He Hrest]; subst. simpl in He.
    destruct He as (Hnil & Hne & Hnq & Hlen).
    rewrite walk_path_step. cbn [render_runs].
    rewrite walkpath_plain by (auto; try lia; right; reflexivity).
    rewrite (walk_skip_run (S k)) by (apply (render_runs_head (S n)); exact Hrest).
    simpl map. now rewrite IH.
Qed.

Lemma walk_path_skips_semicolon_runs_witness :
  walk_path (L "C:\a;;D:\b;;;") (MAX_PATH - 1) = [L "C:\a"; L "D:\b"].
Proof.
  apply (walk_path_skips_semicolon_runs 258 [(L "C:\a", 1); (L "D:\b", 2)]).
  repeat constructor; vm_compute; try discriminate; lia.
Defined.

(* ================================================================== *)
(** * Further properties of [win32_find_git_in_path] *)

Lemma find_git_in_path_loop_status cap os gitexe subdir :
  forall fuel env root buf r b,
  find_git_in_path_loop cap os fuel env root buf gitexe subdir = Returns (r, b) ->
  (r = GIT_ENOTFOUND /\ b = buf)
  \/ (r = 0%Z
      /\ (b = buf
          \/ exists p utf8, git_win32_path_to_utf8 os p = Some utf8
                            /\ b = git_path_mkposix utf8)).
Proof.
  induction fuel as [|fuel IH]; intros env root buf r b;
    cbn [find_git_in_path_loop].
  - intros [= <- <-]. left. auto.
  - destruct (win32_walkpath env root (MAX_PATH - 1)) as [next dir].
    destruct (negb (fits cap dir)); [discriminate|].
    destruct next as [env'|]; [|intros [= <- <-]; left; auto].
    destruct (at_end dir); [intros [= <- <-]; left; auto|].
    destruct (negb (fits cap (ensure_trailing_slash dir))); [discriminate|].
    destruct (Nat.leb _ _); [apply IH|].
    destruct (negb (fits cap (ensure_trailing_slash dir ++ gitexe))); [discriminate|].
    destruct (_ && _); [|apply IH].
    destruct (negb (fits cap _)); [discriminate|].
    unfold win32_path_to_8.
    destruct (git_win32_path_to_utf8 os _) as [utf8|] eqn:E; intros [= <- <-]; right;
      (split; [reflexivity|]).
    + right. eauto.
    + left. reflexivity.
Qed.

(** X6.  [win32_find_git_in_path] returns -1 exactly when PATH is not set,
    and otherwise [GIT_ENOTFOUND] or 0.  Unless it returns 0 it leaves
    [buf] as it was; when it returns 0, [buf] is either as it was or a
    converted path with forward slashes. *)
Theorem find_git_in_path_status
    (cap : nat) (os : World) (buf : git_str) (gitexe subdir : wstr)
    (r : Z) (b : git_str) :
  win32_find_git_in_path cap os buf gitexe subdir = Returns (r, b) ->
  (r = (-1)%Z /\ _wgetenv os (L "PATH") = None /\ b = buf)
  \/ (r = GIT_ENOTFOUND /\ _wgetenv os (L "PATH") <> None /\ b = buf)
  \/ (r = 0%Z /\ _wgetenv os (L "PATH") <> None
      /\ (b = buf
          \/ exists p utf8, git_win32_path_to_utf8 os p = Some utf8
                            /\ b = git_path_mkposix utf8)).
Proof.
  unfold win32_find_git_in_path, find_git_in_path_from.
  destruct (_wgetenv os (L "PATH")) as [env|].
  - intros H. apply find_git_in_path_loop_status in H.
    destruct H as [[-> ->] | [-> H]]; [right; left | right; right];
      repeat split; try discriminate; auto.
  - intros [= <- <-]. left. auto.
Qed.

Lemma find_git_in_path_status_witness :
  win32_find_git_in_path cells git_in_short_dir "old" (L "git.exe") (L "etc\")
  = Returns (GIT_ENOTFOUND, "old").
Proof.
  destruct (win32_find_git_in_path cells git_in_short_dir "old" (L "git.exe") (L "etc\"))
    as [[r b]|] eqn:E; [|vm_compute in E; discriminate].
  destruct (find_git_in_path_status _ _ _ _ _ _ _ E)
    as [(_ & H & _) | [(-> & _ & ->) | (-> & _)]].
  - vm_compute in H. discriminate.
  - reflexivity.
  - vm_compute in E. discriminate.
Defined.

Lemma find_git_in_path_loop_in_bounds cap os gitexe subdir :
  MAX_PATH <= cap -> wcslen subdir + 255 < cap ->
  forall fuel env root buf,
  find_git_in_path_loop cap os fuel env root buf gitexe subdir <> Overrun.
Proof.
  intros Hcap Hsub. unfold wcslen, MAX_PATH in *.
  induction fuel as [|fuel IH]; intros env root buf;
    cbn [find_git_in_path_loop]; [discriminate|].
  pose proof (walkpath_entry_length env root 258) as Hlen.
  change (S 258) with (MAX_PATH - 1) in Hlen.
  destruct (win32_walkpath env root (MAX_PATH - 1)) as [next dir]. simpl in Hlen.
  pose proof (ensure_trailing_slash_length dir) as Hroot.
  set (root' := ensure_trailing_slash dir) in *.
  unfold fits, wcslen, MAX_PATH.
  destruct (Nat.ltb_spec (length dir) cap); [|lia]. cbn [negb].
  destruct next as [env'|]; [|discriminate].
  destruct (at_end dir); [discriminate|].
  destruct (Nat.ltb_spec (length root') cap); [|lia]. cbn [negb].
  destruct (Nat.leb_spec 260 (length root' + length gitexe)); [apply IH|].
  destruct (Nat.ltb_spec (length (root' ++ gitexe)) cap) as [_|Hbad];
    [|rewrite length_app in Hbad; lia]. cbn [negb].
  destruct (_ && _); [|apply IH].
  destruct (Nat.ltb_spec (length (take (length root' - 4) root' ++ subdir)) cap)
    as [_|Hbad]; [discriminate|].
  rewrite length_app, length_take in Hbad. lia.
Qed.

(** X7.  When the array has at least [MAX_PATH] cells and [subdir] leaves
    255 of them free, no store of [win32_find_git_in_path] falls outside
    [root.path], for any PATH value and any file system: entries are cut at
    [MAX_PATH - 2] characters by the walker, the separator and the file
    name are added only below [MAX_PATH], and [subdir] replaces the last
    four characters of at most [MAX_PATH - 1]. *)
Theorem find_git_in_path_in_bounds
    (cap : nat) (os : World) (buf : git_str) (gitexe subdir : wstr) :
  MAX_PATH <= cap -> wcslen subdir + 255 < cap ->
  win32_find_git_in_path cap os buf gitexe subdir <> Overrun.
Proof.
  intros Hcap Hsub. unfold win32_find_git_in_path, find_git_in_path_from.
  destruct (_wgetenv os (L "PATH")); [|discriminate].
  now apply find_git_in_path_loop_in_bounds.
Qed.

Lemma find_git_in_path_in_bounds_witness :
  win32_find_git_in_path cells git_in_bin "" (L "git.exe") (L "etc\") <> Overrun.
Proof.
  apply (find_git_in_path_in_bounds cells git_in_bin "" (L "git.exe") (L "etc\")).
  - unfold cells, MAX_PATH. lia.
  - unfold cells. simpl. lia.
Defined.

(** X8.  The copy of [subdir] over the end of the directory is not checked
    against the size of the array: when the first directory of PATH is
    accepted and the directory without its last four characters, followed
    by [subdir], does not fit, the store runs past [root.path]. *)
Theorem find_git_in_path_long_subdir_overruns
    (cap : nat) (os : World) (buf : git_str) (gitexe subdir d : wstr)
    (rest : list path_item) :
  MAX_PATH <= cap ->
  _wgetenv os (L "PATH") = Some (render (Plain d :: rest)) ->
  Forall (item_ok (MAX_PATH - 1)) (Plain d :: rest) ->
  git_found_in os gitexe d = true ->
  cap <= length (take (length (ensure_trailing_slash d) - 4) (ensure_trailing_slash d)
                 ++ subdir) ->
  win32_find_git_in_path cap os buf gitexe subdir = Overrun.
Proof.
  intros Hcap Henv Hok Hd Hbig.
  unfold win32_find_git_in_path. rewrite Henv.
  assert (Hnil : d <> []) by (inversion Hok as [|? ? Hi _]; subst; apply Hi).
  rewrite (find_git_in_path_from_step cap os _ (render rest) [] d); auto.
  - rewrite Hd. cbv zeta. unfold fits.
    destruct (Nat.ltb_spec
                (length (take (length (ensure_trailing_slash d) - 4)
                           (ensure_trailing_slash d) ++ subdir)) cap);
      [lia|reflexivity].
  - change (MAX_PATH - 1) with (S 258) in *. now apply walkpath_render_plain.
Qed.

Lemma find_git_in_path_long_subdir_overruns_witness :
  win32_find_git_in_path MAX_PATH git_in_bin "" (L "git.exe") long_suffix = Overrun.
Proof.
  apply (find_git_in_path_long_subdir_overruns MAX_PATH git_in_bin ""
           (L "git.exe") long_suffix (L "C:\Tools\Git\bin") []).
  - lia.
  - reflexivity.
  - repeat constructor; vm_compute; try discriminate; lia.
  - reflexivity.
  - vm_compute. lia.
Defined.

(** X9.  When no directory of PATH is accepted by the loop (the probed
    file is missing, the directory with its separator has 5 characters or
    fewer, or directory and file name reach [MAX_PATH]), the lookup returns
    [GIT_ENOTFOUND] and leaves [buf] as it was. *)
Theorem find_git_in_path_none_accepted
    (cap : nat) (os : World) (buf : git_str) (gitexe subdir : wstr)
    (dirs : list wstr) :
  MAX_PATH <= cap ->
  _wgetenv os (L "PATH") = Some (render (map Plain dirs)) ->
  Forall (item_ok (MAX_PATH - 1)) (map Plain dirs) ->
  Forall (fun d => git_found_in os gitexe d = false) dirs ->
  win32_find_git_in_path cap os buf gitexe subdir = Returns (GIT_ENOTFOUND, buf).
Proof.
  intros Hcap Henv Hok Hnone.
  unfold win32_find_git_in_path. rewrite Henv.
  rewrite <- (app_nil_r (map Plain dirs)) in *.
  rewrite find_git_in_path_from_skips by assumption.
  unfold find_git_in_path_from. simpl render. cbn [find_git_in_path_loop length].
  change (MAX_PATH - 1) with (S 258). rewrite walkpath_nil.
  unfold fits, MAX_PATH in *. simpl length.
  destruct (Nat.ltb_spec 0 cap); [reflexivity|lia].
Qed.

Lemma find_git_in_path_none_accepted_witness :
  _waccess git_in_short_dir (L "C:\a\git.exe") = 0%Z
  /\ win32_find_git_in_path cells git_in_short_dir "old" (L "git.exe") (L "etc\")
     = Returns (GIT_ENOTFOUND, "old").
Proof.
  split; [reflexivity|].
  apply (find_git_in_path_none_accepted cells git_in_short_dir "old"
           (L "git.exe") (L "etc\") [L "C:\a"; L "D:\tools"]).
  - unfold cells, MAX_PATH. lia.
  - reflexivity.
  - repeat constructor; vm_compute; try discriminate; lia.
  - repeat constructor.
Defined.

Lemma ensure_trailing_slash_adds (d : wstr) :
  is_sep (List.last d 0%N) = false -> ensure_trailing_slash d = d ++ [wc_backslash].
Proof.
  unfold ensure_trailing_slash, is_sep. intros H. cbv zeta.
  apply orb_false_elim in H as [H1 H2]. rewrite H1, H2. reflexivity.
Qed.

Lemma ensure_trailing_slash_keeps (d : wstr) :
  ensure_trailing_slash (d ++ [wc_backslash]) = d ++ [wc_backslash].
Proof.
  unfold ensure_trailing_slash. cbv zeta. rewrite List.last_last.
  rewrite N.eqb_refl, andb_false_r. reflexivity.
Qed.

(** X10.  A directory of PATH is treated the same with and without a
    backslash at its end: the loop started on a PATH value whose first
    entry is [d] and the loop started on the same value with [d] followed
    by a backslash give the same result. *)
Theorem find_git_in_path_trailing_separator
    (cap : nat) (os : World) (root : wstr) (buf : git_str)
    (gitexe subdir d : wstr) (rest : list path_item) :
  MAX_PATH <= cap ->
  Forall (item_ok (MAX_PATH - 1)) (Plain (d ++ [wc_backslash]) :: rest) ->
  d <> [] -> is_sep (List.last d 0%N) = false ->
  find_git_in_path_from cap os (render (Plain d :: rest)) root buf gitexe subdir
  = find_git_in_path_from cap os (render (Plain (d ++ [wc_backslash]) :: rest))
      root buf gitexe subdir.
Proof.
  intros Hcap Hok Hnil Hlast.
  assert (Hok' : Forall (item_ok (MAX_PATH - 1)) (Plain d :: rest)).
  { inversion Hok as [|? ? Hi Hrest]; subst.
    destruct Hi as (_ & Hne & Hq & Hlen).
    constructor; [|exact Hrest]. repeat split.
    - exact Hnil.
    - apply Forall_app in Hne. tauto.
    - destruct d; [contradiction|exact Hq].
    - rewrite length_app in Hlen. unfold MAX_PATH in *. simpl length in Hlen. lia. }
  change (MAX_PATH - 1) with (S 258) in Hok, Hok'.
  rewrite (find_git_in_path_from_step cap os _ (render rest) root d);
    [|assumption|now apply walkpath_render_plain|assumption].
  rewrite (find_git_in_path_from_step cap os _ (render rest) root (d ++ [wc_backslash]));
    [|assumption|now apply walkpath_render_plain|now destruct d].
  unfold git_found_in.
  rewrite ensure_trailing_slash_keeps, (ensure_trailing_slash_adds d Hlast).
  destruct (_ && _); [reflexivity|].
  unfold find_git_in_path_from. apply find_git_in_path_loop_root.
Qed.

Lemma find_git_in_path_trailing_separator_witness :
  find_git_in_path_from cells git_in_bin (L "C:\Tools\Git\bin") []
    "" (L "git.exe") (L "etc\")
  = find_git_in_path_from cells git_in_bin (L "C:\Tools\Git\bin\") []
      "" (L "git.exe") (L "etc\").
Proof.
  apply (find_git_in_path_trailing_separator cells git_in_bin [] "" (L "git.exe")
           (L "etc\") (L "C:\Tools\Git\bin") []).
  - unfold cells, MAX_PATH. lia.
  - repeat constructor; vm_compute; try discriminate; lia.
  - discriminate.
  - reflexivity.
Defined.

(* ================================================================== *)
(** * Further properties of [win32_find_git_in_registry] *)

(** ** On the cells of [path] *)

Lemma first_nul_app_nul (s rest : list wchar_t) :
  Forall (fun c => c <> 0%N) s -> first_nul (s ++ 0%N :: rest) = Some (length s).
Proof.
  induction 1 as [|c s Hc _ IH]; [reflexivity|].
  cbn [app first_nul length]. destruct (N.eqb_spec c 0); [contradiction|].
  now rewrite IH.
Qed.

Lemma first_nul_In (s rest : list wchar_t) :
  In 0%N s -> exists n, first_nul (s ++ rest) = Some n /\ n < length s.
Proof.
  induction s as [|c s IH]; [contradiction|]. intros Hin.
  cbn [app first_nul length]. destruct (N.eqb_spec c 0) as [->|Hc].
  - exists 0. split; [reflexivity|lia].
  - destruct Hin as [E|Hin]; [congruence|].
    destruct (IH Hin) as (n & -> & Hn). exists (S n). split; [reflexivity|lia].
Qed.

Lemma first_nul_after (cells : list wchar_t) (m n : nat) :
  (forall i c, i < m -> cells !! i = Some c -> c <> 0%N) ->
  first_nul cells = Some n -> m <= n.
Proof.
  revert m n. induction cells as [|c cells IH]; intros m n Hall; [discriminate|].
  cbn [first_nul]. destruct (N.eqb_spec c 0) as [->|Hc].
  - intros [= <-]. destruct m; [lia|]. now specialize (Hall 0 0%N ltac:(lia) eq_refl).
  - destruct (first_nul cells) as [k|] eqn:E; [|discriminate]. intros [= <-].
    destruct m; [lia|]. apply le_n_S. apply (IH m k); [|reflexivity].
    intros i c' Hi Hc'. apply (Hall (S i) c'); [lia|exact Hc'].
Qed.

Lemma path_cells_lookup cap before (data : list wchar_t) i c :
  path_cells cap before data !! i = Some c ->
  data !! i = Some c \/ (length data <= i < cap /\ c = before i).
Proof.
  unfold path_cells. intros H. apply lookup_app_Some in H as [H|[Hle H]]; [now left|].
  right. apply list_lookup_fmap_Some in H as (j & -> & Hj).
  apply lookup_seq in Hj as [-> Hlt]. split; [lia|f_equal; lia].
Qed.

(** On values stored with their NUL the run on the cells is the run of
    [win32_find_git_in_registry], whatever [path] held before. *)
Lemma find_git_in_registry_cells_stored cap os before buf hive key subdir :
  (forall (hKey : reg_key) v,
     RegOpenKeyExW os hive key = Some hKey ->
     hKey !! L "InstallLocation" = Some v ->
     Forall (fun c => c <> 0%N) (reg_chars v)) ->
  win32_find_git_in_registry_cells cap os
    (stored_registry (RegOpenKeyExW os)) before buf hive key subdir
  = win32_find_git_in_registry cap os buf hive key subdir.
Proof.
  intros Hnul.
  unfold win32_find_git_in_registry_cells, win32_find_git_in_registry,
    stored_registry.
  destruct (RegOpenKeyExW os hive key) as [hKey|] eqn:Hopen; [|reflexivity].
  specialize (Hnul hKey).
  cbv beta iota. unfold registry_path, RegQueryValueExW.
  unfold stored_key, reg_key in *. rewrite lookup_fmap.
  destruct (hKey !! L "InstallLocation") as [v|]; [|reflexivity].
  specialize (Hnul v eq_refl eq_refl).
  cbn [fmap option_fmap option_map]. cbv zeta. unfold stored.
  cbn [stored_cells stored_ty]. unfold reg_data_size.
  rewrite length_app. cbn [length].
  replace (2 * Z.of_nat (length (reg_chars v) + 1))%Z
    with (2 * (Z.of_nat (length (reg_chars v)) + 1))%Z by lia.
  destruct (Z.leb_spec (2 * (Z.of_nat (length (reg_chars v)) + 1))
                       (registry_cbData cap subdir)); [|reflexivity].
  unfold ERROR_SUCCESS.
  destruct (Nat.ltb_spec cap (length (reg_chars v) + 1)),
           (Z.ltb_spec (Z.of_nat cap * 2) (2 * (Z.of_nat (length (reg_chars v)) + 1)));
    try lia; [reflexivity|].
  destruct (reg_ty v); try reflexivity.
  unfold wcscat_cells, path_cells. rewrite <- app_assoc. cbn [app].
  rewrite (first_nul_app_nul _ _ Hnul).
  rewrite take_app_length. unfold fits, wcslen. rewrite length_app.
  destruct (Nat.ltb (length (reg_chars v) + length subdir) cap); reflexivity.
Qed.

(** X11.  With a suffix no longer than the array, and string values stored
    with a NUL among their cells, no store of [win32_find_git_in_registry]
    falls outside [path], whatever [path] held before: the size given to
    the query leaves room for the suffix and its NUL behind the string.
    Values of another type are copied and not appended to. *)
Theorem find_git_in_registry_in_bounds
    (cap : nat) (os : World) (reg : HKEY -> wstr -> option stored_key)
    (before : nat -> wchar_t) (buf : git_str) (hive : HKEY) (key subdir : wstr) :
  wcslen subdir <= cap -> (Z.of_nat cap * 2 < 2 ^ 32)%Z ->
  (forall (hKey : stored_key) v,
     reg hive key = Some hKey -> hKey !! L "InstallLocation" = Some v ->
     stored_ty v = REG_SZ -> In 0%N (stored_cells v)) ->
  win32_find_git_in_registry_cells cap os reg before buf hive key subdir <> Overrun.
Proof.
  intros Hsub Hcap Hnul. unfold win32_find_git_in_registry_cells.
  destruct (reg hive key) as [hKey|] eqn:Hopen; [|discriminate].
  destruct (hKey !! L "InstallLocation") as [v|] eqn:Hv; [|discriminate].
  specialize (Hnul hKey v eq_refl Hv). cbv zeta.
  rewrite (registry_cbData_eq cap subdir Hsub Hcap).
  destruct (Z.leb_spec (2 * Z.of_nat (length (stored_cells v)))
                       (2 * Z.of_nat (cap - wcslen subdir))); [|discriminate].
  destruct (Nat.ltb_spec cap (length (stored_cells v))); [lia|].
  destruct (stored_ty v); try discriminate.
  unfold wcscat_cells, path_cells.
  destruct (first_nul_In (stored_cells v)
              (map before (seq (length (stored_cells v))
                             (cap - length (stored_cells v))))
              (Hnul eq_refl)) as (n & -> & Hn).
  destruct (Nat.ltb_spec (n + wcslen subdir) cap); [|lia].
  cbn [mbind outcome_bind]. destruct (win32_path_to_8 os buf _). discriminate.
Qed.

Lemma find_git_in_registry_in_bounds_witness :
  win32_find_git_in_registry_cells cells empty_machine
    (one_stored_record HKEY_CURRENT_USER REG_MSYSGIT_INSTALL_LOCAL
       (L "C:\Git\" ++ [0%N]))
    (fun _ => 97%N) "" HKEY_CURRENT_USER REG_MSYSGIT_INSTALL_LOCAL (L "etc\")
  <> Overrun.
Proof.
  apply (find_git_in_registry_in_bounds cells empty_machine
           (one_stored_record HKEY_CURRENT_USER REG_MSYSGIT_INSTALL_LOCAL
              (L "C:\Git\" ++ [0%N]))
           (fun _ => 97%N) "" HKEY_CURRENT_USER REG_MSYSGIT_INSTALL_LOCAL
           (L "etc\")).
  - unfold cells. simpl. lia.
  - vm_compute. reflexivity.
  - intros hKey v Hopen Hv _.
    injection Hopen as <-. apply lookup_singleton_Some in Hv as [_ <-].
    vm_compute. repeat (first [left; reflexivity | right]).
Defined.

(** X24.  A string value stored without a NUL is read like any other when
    its data is within the size given to the query.  When the cells of
    [path] behind the data hold no NUL up to the room kept for the suffix,
    and so for data that takes all the size given, the end of the string is
    looked for behind that room and the suffix or its NUL is stored
    outside [path]. *)
Theorem find_git_in_registry_unterminated_overruns
    (cap : nat) (os : World) (reg : HKEY -> wstr -> option stored_key)
    (before : nat -> wchar_t) (buf : git_str) (hive : HKEY) (key subdir : wstr)
    (hKey : stored_key) (data : list wchar_t) :
  wcslen subdir <= cap -> (Z.of_nat cap * 2 < 2 ^ 32)%Z ->
  reg hive key = Some hKey ->
  hKey !! L "InstallLocation" = Some {| stored_ty := REG_SZ; stored_cells := data |} ->
  Forall (fun c => c <> 0%N) data ->
  length data + wcslen subdir <= cap ->
  (forall i, length data <= i < cap - wcslen subdir -> before i <> 0%N) ->
  win32_find_git_in_registry_cells cap os reg before buf hive key subdir = Overrun.
Proof.
  intros Hsub Hcap Hopen Hv Hdata Hlen Hbefore.
  unfold win32_find_git_in_registry_cells. rewrite Hopen, Hv.
  cbn [stored_cells stored_ty]. cbv zeta.
  rewrite (registry_cbData_eq cap subdir Hsub Hcap).
  destruct (Z.leb_spec (2 * Z.of_nat (length data))
                       (2 * Z.of_nat (cap - wcslen subdir))); [|lia].
  destruct (Nat.ltb_spec cap (length data)); [reflexivity|].
  unfold wcscat_cells.
  destruct (first_nul (path_cells cap before data)) as [n|] eqn:E; [|reflexivity].
  assert (Hn : cap - wcslen subdir <= n).
  { apply (first_nul_after (path_cells cap before data)); [|exact E].
    intros i c Hi Hc. apply path_cells_lookup in Hc as [Hc|[Hr ->]].
    - exact (Forall_lookup_1 _ _ _ _ Hdata Hc).
    - apply Hbefore. lia. }
  destruct (Nat.ltb_spec (n + wcslen subdir) cap); [lia|reflexivity].
Qed.

Lemma find_git_in_registry_unterminated_overruns_witness :
  win32_find_git_in_registry_cells cells empty_machine
    (one_stored_record HKEY_CURRENT_USER REG_MSYSGIT_INSTALL_LOCAL
       (unterminated (cells - 4)))
    (fun _ => 0%N) "" HKEY_CURRENT_USER REG_MSYSGIT_INSTALL_LOCAL (L "etc\")
  = Overrun.
Proof.
  apply (find_git_in_registry_unterminated_overruns cells empty_machine
           (one_stored_record HKEY_CURRENT_USER REG_MSYSGIT_INSTALL_LOCAL
              (unterminated (cells - 4)))
           (fun _ => 0%N) "" HKEY_CURRENT_USER REG_MSYSGIT_INSTALL_LOCAL
           (L "etc\")
           {[ L "InstallLocation" :=
                {| stored_ty := REG_SZ; stored_cells := unterminated (cells - 4) |} ]}
           (unterminated (cells - 4))).
  - unfold cells. simpl. lia.
  - vm_compute. reflexivity.
  - reflexivity.
  - apply lookup_singleton_eq.
  - unfold unterminated. apply List.Forall_forall. intros c Hc.
    apply repeat_spec in Hc. now subst.
  - unfold unterminated. rewrite repeat_length. unfold cells. simpl. lia.
  - unfold unterminated. rewrite repeat_length. unfold cells. simpl. lia.
Defined.

(** ** On values stored as terminated strings *)

(** X12.  The room kept for the suffix is computed without a test that the
    suffix is shorter than the array: with a longer suffix the subtraction
    wraps around, and a string value that the query then accepts is
    followed by a store past [path]. *)
Theorem find_git_in_registry_long_suffix_overruns
    (cap : nat) (os : World) (buf : git_str) (hive : HKEY) (key subdir : wstr)
    (hKey : reg_key) (v : wstr) :
  cap < wcslen subdir ->
  RegOpenKeyExW os hive key = Some hKey ->
  hKey !! L "InstallLocation" = Some {| reg_ty := REG_SZ; reg_chars := v |} ->
  (reg_data_size {| reg_ty := REG_SZ; reg_chars := v |}
   <= registry_cbData cap subdir)%Z ->
  win32_find_git_in_registry cap os buf hive key subdir = Overrun.
Proof.
  intros Hsub Hopen Hval Hsize. unfold win32_find_git_in_registry. rewrite Hopen.
  assert (Hp : registry_path cap hKey subdir = Overrun).
  { unfold registry_path, RegQueryValueExW. rewrite Hval.
    destruct (Z.leb_spec (reg_data_size {| reg_ty := REG_SZ; reg_chars := v |})
                         (registry_cbData cap subdir)); [|lia].
    unfold ERROR_SUCCESS. destruct (_ <? _)%Z; [reflexivity|].
    cbn [reg_ty reg_chars]. unfold fits, wcslen in *. rewrite length_app.
    destruct (Nat.ltb_spec (length v + length subdir) cap); [lia|reflexivity]. }
  rewrite Hp. reflexivity.
Qed.

Lemma find_git_in_registry_long_suffix_overruns_witness :
  win32_find_git_in_registry cells one_install_record "" HKEY_CURRENT_USER
    REG_MSYSGIT_INSTALL_LOCAL oversized_suffix = Overrun.
Proof.
  apply (find_git_in_registry_long_suffix_overruns cells one_install_record ""
           HKEY_CURRENT_USER REG_MSYSGIT_INSTALL_LOCAL oversized_suffix
           {[ L "InstallLocation" := {| reg_ty := REG_SZ; reg_chars := L "C:\Git\" |} ]}
           (L "C:\Git\")).
  - vm_compute. lia.
  - reflexivity.
  - reflexivity.
  - vm_compute. discriminate.
Defined.



(* ================================================================== *)
(** * Further properties of [win32_find_existing_dirs] *)

Lemma find_existing_dirs_loop_resolved cap os t p tmpl out buf :
  template_dir cap os t = Some p ->
  find_existing_dirs_loop cap os (t :: tmpl) out buf
  = find_existing_dirs_loop cap os tmpl
      (if negb (Nat.eqb (git_str_size (snd (win32_path_to_8 os buf p))) 0)
       then git_str_join GIT_PATH_LIST_SEPARATOR out (snd (win32_path_to_8 os buf p))
       else out)
      (snd (win32_path_to_8 os buf p)).
Proof.
  intros Ht. cbn [find_existing_dirs_loop]. unfold template_dir in Ht.
  destruct (git_win32__expand_path cap os t) as [p16|]; [|discriminate].
  destruct (_ && _); [|discriminate]. now injection Ht as <-.
Qed.

Lemma find_existing_dirs_loop_skip cap os t tmpl out buf :
  template_dir cap os t = None ->
  find_existing_dirs_loop cap os (t :: tmpl) out buf
  = find_existing_dirs_loop cap os tmpl out buf.
Proof.
  intros Ht. cbn [find_existing_dirs_loop]. unfold template_dir in Ht.
  destruct (git_win32__expand_path cap os t) as [p16|]; [|reflexivity].
  destruct (_ && _); [discriminate|reflexivity].
Qed.

(** A template that does not resolve changes neither [out] nor [buf]. *)
Lemma find_existing_dirs_loop_unresolved cap os tmpl : forall out buf,
  Forall (fun t => template_dir cap os t = None) tmpl ->
  find_existing_dirs_loop cap os tmpl out buf = (out, buf).
Proof.
  induction tmpl as [|t tmpl IH]; intros out buf Hall; [reflexivity|].
  inversion Hall as [|? ? Ht Hrest]; subst.
  cbn [find_existing_dirs_loop]. unfold template_dir in Ht.
  destruct (git_win32__expand_path cap os t) as [p16|]; [|now apply IH].
  destruct (_ && _); [discriminate|now apply IH].
Qed.

(** X14.  Where nothing exists, every list of templates gives status 0 and
    an empty output, whatever [out] held. *)
Theorem find_existing_dirs_nothing_exists
    (cap : nat) (os : World) (out : git_str) (tmpl : list wstr) :
  (forall p, _waccess os p <> 0%Z) ->
  win32_find_existing_dirs cap os out tmpl = (0%Z, "").
Proof.
  intros Hnone. unfold win32_find_existing_dirs.
  rewrite find_existing_dirs_loop_unresolved; [reflexivity|].
  apply Forall_forall. intros t _. unfold template_dir.
  destruct (git_win32__expand_path cap os t) as [p16|]; [|reflexivity].
  destruct (Z.eqb_spec (_waccess os (path p16)) 0) as [E|_].
  - now apply Hnone in E.
  - now rewrite andb_false_r.
Qed.

Lemma find_existing_dirs_nothing_exists_witness :
  git_win32__find_global_dirs cells empty_machine "old" = (0%Z, "").
Proof.
  apply (find_existing_dirs_nothing_exists cells empty_machine "old" global_tmpls).
  intros p. vm_compute. discriminate.
Defined.

Lemma find_existing_dirs_loop_entries cap os tmpl : forall out buf,
  Forall (fun t => forall p, template_dir cap os t = Some p ->
                             git_win32_path_to_utf8 os p <> None) tmpl ->
  fst (find_existing_dirs_loop cap os tmpl out buf)
  = fold_left join_entry (map (template_entry cap os) tmpl) out.
Proof.
  induction tmpl as [|t tmpl IH]; intros out buf Hall; [reflexivity|].
  inversion Hall as [|? ? Ht Hrest]; subst.
  cbn [map fold_left].
  assert (He : template_entry cap os t
               = match template_dir cap os t with
                 | Some p =>
                     match git_win32_path_to_utf8 os p with
                     | Some utf8 =>
                         if Nat.eqb (git_str_size (git_path_mkposix utf8)) 0 then None
                         else Some (git_path_mkposix utf8)
                     | None => None
                     end
                 | None => None
                 end) by reflexivity.
  rewrite He. clear He.
  destruct (template_dir cap os t) as [p|] eqn:Hd.
  - rewrite (find_existing_dirs_loop_resolved cap os t p) by assumption.
    specialize (Ht p eq_refl). unfold win32_path_to_8.
    destruct (git_win32_path_to_utf8 os p) as [utf8|]; [|contradiction].
    cbn [snd git_str_sets]. rewrite IH by assumption.
    unfold git_str_sets.
    destruct (Nat.eqb (git_str_size (git_path_mkposix utf8)) 0); reflexivity.
  - rewrite find_existing_dirs_loop_skip by assumption. now apply IH.
Qed.

(** X15.  When every directory a template resolves to converts to UTF-8,
    the output is the join, in the order of the list and with one
    separator between two entries, of the entries of the templates that
    resolve: a template whose expansion fails, starts with a percent sign
    or names nothing that exists adds nothing. *)
Theorem find_existing_dirs_joins_entries
    (cap : nat) (os : World) (out : git_str) (tmpl : list wstr) :
  Forall (fun t => forall p, template_dir cap os t = Some p ->
                             git_win32_path_to_utf8 os p <> None) tmpl ->
  win32_find_existing_dirs cap os out tmpl
  = (0%Z, fold_left join_entry (map (template_entry cap os) tmpl) "").
Proof.
  intros Hall. unfold win32_find_existing_dirs.
  pose proof (find_existing_dirs_loop_entries cap os tmpl (git_str_clear out) "" Hall)
    as H.
  destruct (find_existing_dirs_loop cap os tmpl (git_str_clear out) "") as [o b].
  simpl in H. now rewrite H.
Qed.

Lemma find_existing_dirs_joins_entries_witness :
  git_win32__find_xdg_dirs cells roaming_profile "old"
  = (0%Z, "C:/Users/me/AppData/Roaming/git;C:/Users/me/.config/git").
Proof.
  unfold git_win32__find_xdg_dirs.
  rewrite (find_existing_dirs_joins_entries cells roaming_profile "old" xdg_tmpls).
  - vm_compute. reflexivity.
  - repeat constructor; intros p H; vm_compute in H;
      try discriminate; injection H as <-; vm_compute; discriminate.
Defined.

(** X16.  One buffer serves all templates and the result of the conversion
    is not looked at: when a template gives an entry and a later template
    resolves to a directory whose conversion fails (the templates around
    them not resolving), the entry of the first is joined a second time. *)
Theorem find_existing_dirs_repeats_entry
    (cap : nat) (os : World) (out : git_str)
    (pre mid post : list wstr) (t1 t2 p1 p2 : wstr) (utf8 : string) :
  Forall (fun t => template_dir cap os t = None) (pre ++ mid ++ post) ->
  template_dir cap os t1 = Some p1 ->
  git_win32_path_to_utf8 os p1 = Some utf8 ->
  git_path_mkposix utf8 <> "" ->
  template_dir cap os t2 = Some p2 ->
  git_win32_path_to_utf8 os p2 = None ->
  win32_find_existing_dirs cap os out (pre ++ t1 :: mid ++ t2 :: post)
  = (0%Z, git_str_join GIT_PATH_LIST_SEPARATOR
            (git_path_mkposix utf8) (git_path_mkposix utf8)).
Proof.
  intros Hun H1 Hc1 Hne H2 Hc2.
  apply Forall_app in Hun as [Hpre Hun]. apply Forall_app in Hun as [Hmid Hpost].
  assert (Hsize : Nat.eqb (git_str_size (git_path_mkposix utf8)) 0 = false).
  { destruct (git_path_mkposix utf8); [contradiction|reflexivity]. }
  unfold win32_find_existing_dirs.
  rewrite find_existing_dirs_loop_app.
  rewrite (find_existing_dirs_loop_unresolved cap os pre) by assumption.
  cbn [fst snd]. rewrite (find_existing_dirs_loop_resolved cap os t1 p1) by assumption.
  unfold win32_path_to_8. rewrite Hc1. cbn [snd]. unfold git_str_sets.
  rewrite Hsize. cbn [negb].
  rewrite find_existing_dirs_loop_app.
  rewrite (find_existing_dirs_loop_unresolved cap os mid) by assumption.
  cbn [fst snd]. rewrite (find_existing_dirs_loop_resolved cap os t2 p2) by assumption.
  unfold win32_path_to_8. rewrite Hc2. cbn [snd]. rewrite Hsize. cbn [negb].
  rewrite (find_existing_dirs_loop_unresolved cap os post) by assumption.
  reflexivity.
Qed.

Lemma find_existing_dirs_repeats_entry_witness :
  git_win32__find_xdg_dirs cells unconvertible_localappdata "old"
  = (0%Z, "C:/A/git;C:/A/git").
Proof.
  apply (find_existing_dirs_repeats_entry cells unconvertible_localappdata "old"
           [L "%XDG_CONFIG_HOME%\git"] []
           [L "%HOME%\.config\git"; L "%HOMEDRIVE%%HOMEPATH%\.config\git";
            L "%USERPROFILE%\.config\git"]
           (L "%APPDATA%\git") (L "%LOCALAPPDATA%\git")
           (L "C:\A\git") (L "C:\" ++ [55296%N] ++ L "\git") "C:\A\git").
  - repeat constructor.
  - reflexivity.
  - reflexivity.
  - discriminate.
  - reflexivity.
  - reflexivity.
Defined.

Lemma mkposix_no_backslash s : no_backslash (git_path_mkposix s).
Proof.
  induction s as [|c s IH]; simpl; [exact I|]. split; [|exact IH].
  destruct (Ascii.eqb_spec c "\"%char); [discriminate|assumption].
Qed.

Lemma append_no_backslash a b :
  no_backslash a -> no_backslash b -> no_backslash (a +:+ b).
Proof. induction a as [|c a IH]; simpl; [tauto|]. intros [Hc Ha] Hb. auto. Qed.

Lemma join_no_backslash a b :
  no_backslash a -> no_backslash b ->
  no_backslash (git_str_join GIT_PATH_LIST_SEPARATOR a b).
Proof.
  intros Ha Hb. unfold git_str_join. destruct a as [|c a]; [exact Hb|].
  apply append_no_backslash; [exact Ha|]. simpl. split; [discriminate|exact Hb].
Qed.

Lemma path_to_8_no_backslash os dest src :
  no_backslash dest -> no_backslash (snd (win32_path_to_8 os dest src)).
Proof.
  intros H. unfold win32_path_to_8.
  destruct (git_win32_path_to_utf8 os src); [apply mkposix_no_backslash|exact H].
Qed.

Lemma find_existing_dirs_loop_no_backslash cap os tmpl : forall out buf,
  no_backslash out -> no_backslash buf ->
  no_backslash (fst (find_existing_dirs_loop cap os tmpl out buf)).
Proof.
  induction tmpl as [|t tmpl IH]; intros out buf Ho Hb; [exact Ho|].
  cbn [find_existing_dirs_loop].
  destruct (git_win32__expand_path cap os t) as [p16|]; [|now apply IH].
  destruct (_ && _); [|now apply IH].
  pose proof (path_to_8_no_backslash os buf (path p16) Hb) as Hb'.
  apply IH; [|exact Hb'].
  destruct (negb _); [now apply join_no_backslash|exact Ho].
Qed.

(** X17.  The output of [win32_find_existing_dirs], and so of the three
    functions that call it, never holds a backslash, whatever the
    environment, the file system and the conversion give. *)
Theorem find_existing_dirs_no_backslash
    (cap : nat) (os : World) (out : git_str) (tmpl : list wstr) :
  no_backslash (snd (win32_find_existing_dirs cap os out tmpl)).
Proof.
  unfold win32_find_existing_dirs.
  pose proof (find_existing_dirs_loop_no_backslash cap os tmpl (git_str_clear out) ""
                I I) as H.
  destruct (find_existing_dirs_loop cap os tmpl (git_str_clear out) ""). exact H.
Qed.

(* ================================================================== *)
(** * Further properties of [git_win32__find_system_dirs] *)

Lemma find_git_in_path_buf cap os buf gitexe subdir r b :
  win32_find_git_in_path cap os buf gitexe subdir = Returns (r, b) ->
  b = buf \/ exists utf8, b = git_path_mkposix utf8.
Proof.
  unfold win32_find_git_in_path, find_git_in_path_from.
  destruct (_wgetenv os (L "PATH")) as [env|]; [|intros [= _ <-]; now left].
  intros H. apply find_git_in_path_loop_status in H.
  destruct H as [[_ ->] | [_ [-> | (p & utf8 & _ & ->)]]]; eauto.
Qed.

Lemma find_git_in_registry_buf cap os buf hive key subdir r b :
  win32_find_git_in_registry cap os buf hive key subdir = Returns (r, b) ->
  b = buf \/ exists utf8, b = git_path_mkposix utf8.
Proof.
  unfold win32_find_git_in_registry.
  destruct (RegOpenKeyExW os hive key) as [hKey|]; [|intros [= _ <-]; now left].
  destruct (registry_path cap hKey subdir) as [[p|]|];
    [|intros [= _ <-]; now left|discriminate].
  cbn [mbind outcome_bind]. unfold win32_path_to_8.
  destruct (git_win32_path_to_utf8 os p) as [utf8|]; intros [= _ <-]; eauto.
Qed.

Lemma run_sources_no_backslash fs :
  Forall (fun f => forall buf r b, f buf = Returns (r, b) ->
                   b = buf \/ exists utf8, b = git_path_mkposix utf8) fs ->
  forall buf out r o,
  no_backslash buf -> no_backslash out ->
  run_sources fs buf out = Returns (r, o) -> no_backslash o.
Proof.
  induction 1 as [|f fs Hf Hfs IH]; intros buf out r o Hb Ho; cbn [run_sources].
  - now intros [= _ <-].
  - destruct (f buf) as [[r' b']|] eqn:E; [|discriminate].
    cbn [mbind outcome_bind].
    assert (Hb' : no_backslash b').
    { destruct (Hf _ _ _ E) as [-> | [utf8 ->]];
        [exact Hb | apply mkposix_no_backslash]. }
    apply IH; [exact Hb'|].
    destruct (hit r' b'); [now apply join_no_backslash | exact Ho].
Qed.

(** X18.  When [git_win32__find_system_dirs] returns, its output holds no
    backslash, whatever PATH, the file system, the registry and the
    conversion give: [out] is built from [buf] alone, and [buf] changes
    only to a path whose backslashes have been rewritten. *)
Theorem find_system_dirs_no_backslash
    (cap : nat) (win64 : bool) (os : World) (out : git_str) (subdir : wstr) :
  match git_win32__find_system_dirs cap win64 os out subdir with
  | Returns (_, o) => no_backslash o
  | Overrun => True
  end.
Proof.
  destruct (git_win32__find_system_dirs cap win64 os out subdir) as [[r o]|] eqn:E;
    [|exact I].
  rewrite find_system_dirs_run in E.
  refine (run_sources_no_backslash _ _ "" "" r o I I E).
  constructor; [|constructor; [|constructor; [|constructor; [|constructor]]]];
    intros buf r' b' H;
    first [now apply find_git_in_path_buf in H
          | now apply find_git_in_registry_buf in H].
Qed.

(** X19.  What [out] holds before the call has no effect: the results of
    [git_win32__find_system_dirs] and of [win32_find_existing_dirs] are
    the same for every [out]. *)
Theorem find_dirs_forget_out
    (cap : nat) (win64 : bool) (os : World) (out1 out2 : git_str)
    (subdir : wstr) (tmpl : list wstr) :
  git_win32__find_system_dirs cap win64 os out1 subdir
    = git_win32__find_system_dirs cap win64 os out2 subdir
  /\ win32_find_existing_dirs cap os out1 tmpl
     = win32_find_existing_dirs cap os out2 tmpl.
Proof.
  split; [now rewrite !find_system_dirs_run | reflexivity].
Qed.

Lemma own_entry_filled e :
  e <> "" -> own_entry (Returns (0%Z, e)) = Returns (Some e).
Proof. intros H. destruct e; [contradiction|reflexivity]. Qed.

(** X20.  When each of the four sources, run by itself, returns 0 with an
    entry, the output lists the four entries in the order of the calls:
    git.exe along PATH, git.cmd along PATH, the per-user record, the
    machine-wide record, with one separator between two entries. *)
Theorem find_system_dirs_four_entries
    (cap : nat) (win64 : bool) (os : World) (out : git_str) (subdir : wstr)
    (e1 e2 e3 e4 : git_str) :
  system_sources cap win64 os subdir
    = [Returns (0%Z, e1); Returns (0%Z, e2); Returns (0%Z, e3); Returns (0%Z, e4)] ->
  e1 <> "" -> e2 <> "" -> e3 <> "" -> e4 <> "" ->
  git_win32__find_system_dirs cap win64 os out subdir
  = Returns (0%Z, ((e1 +:+ String GIT_PATH_LIST_SEPARATOR e2)
                   +:+ String GIT_PATH_LIST_SEPARATOR e3)
                  +:+ String GIT_PATH_LIST_SEPARATOR e4).
Proof.
  intros Hsrc H1 H2 H3 H4.
  assert (Hcmd : win32_find_git_in_path cap os "" (L "git.cmd") subdir
                 <> Returns (0%Z, "")).
  { unfold system_sources in Hsrc. injection Hsrc as _ -> _ _. congruence. }
  rewrite (find_system_dirs_joins_sources cap win64 os out subdir Hcmd), Hsrc.
  cbn [join_sources]. rewrite !own_entry_filled by assumption.
  cbn [mbind outcome_bind join_entry git_str_join].
  destruct e1 as [|c1 s1]; [contradiction|]. reflexivity.
Qed.

Lemma find_system_dirs_four_entries_witness :
  git_win32__find_system_dirs cells true full_machine "old" (L "etc\")
  = Returns (0%Z, "C:/Git/etc/;D:/Git/etc/;E:/User/Git/etc/;F:/Git/etc/").
Proof.
  apply (find_system_dirs_four_entries cells true full_machine "old" (L "etc\")
           "C:/Git/etc/" "D:/Git/etc/" "E:/User/Git/etc/" "F:/Git/etc/").
  - vm_compute. reflexivity.
  - discriminate.
  - discriminate.
  - discriminate.
  - discriminate.
Defined.

(** X21.  With PATH not set and neither registry key present, the output
    is empty and the status 0, whatever [out] held and whatever the
    suffix. *)
Theorem find_system_dirs_nothing_found
    (cap : nat) (win64 : bool) (os : World) (out : git_str) (subdir : wstr) :
  _wgetenv os (L "PATH") = None ->
  RegOpenKeyExW os HKEY_CURRENT_USER REG_MSYSGIT_INSTALL_LOCAL = None ->
  RegOpenKeyExW os HKEY_LOCAL_MACHINE (REG_MSYSGIT_INSTALL win64) = None ->
  git_win32__find_system_dirs cap win64 os out subdir = Returns (0%Z, "").
Proof.
  intros Henv Hu Hm.
  rewrite find_system_dirs_joins_sources
    by (rewrite find_git_in_path_no_env by assumption; discriminate).
  unfold system_sources.
  rewrite !find_git_in_path_no_env by assumption.
  rewrite (find_git_in_registry_no_key _ _ _ _ _ _ Hu).
  rewrite (find_git_in_registry_no_key _ _ _ _ _ _ Hm). reflexivity.
Qed.

Lemma find_system_dirs_nothing_found_witness :
  git_win32__find_system_dirs cells true empty_machine "old" (L "etc\")
  = Returns (0%Z, "").
Proof.
  apply (find_system_dirs_nothing_found cells true empty_machine "old" (L "etc\"));
    reflexivity.
Defined.

(** X22.  Unless the lookup of git.cmd returns 0 with an empty buffer, the
    result of [git_win32__find_system_dirs] is the one the four sources,
    each run by itself on an empty buffer, call for: their entries joined
    in the order of the calls, a source that fails or leaves the buffer
    empty adding nothing, and an overrun of a source being the result. *)
Theorem find_system_dirs_lists_own_entries
    (cap : nat) (win64 : bool) (os : World) (out : git_str) (subdir : wstr) :
  win32_find_git_in_path cap os "" (L "git.cmd") subdir <> Returns (0%Z, "") ->
  git_win32__find_system_dirs cap win64 os out subdir
  = join_sources (system_sources cap win64 os subdir) "".
Proof.
  intros Hcmd. rewrite find_system_dirs_run, run_sources_head; [reflexivity|].
  constructor; [now apply find_git_in_path_clean|].
  constructor; [apply find_git_in_registry_clean|].
  constructor; [apply find_git_in_registry_clean|constructor].
Qed.

Lemma find_system_dirs_lists_own_entries_witness :
  git_win32__find_system_dirs cells true git_in_bin "old" (L "etc\")
  = Returns (0%Z, "C:/Tools/Git/etc/").
Proof.
  rewrite (find_system_dirs_lists_own_entries cells true git_in_bin "old" (L "etc\")).
  - vm_compute. reflexivity.
  - vm_compute. discriminate.
Defined.
